(** * go-ra: configuration validation and daemon orchestration

    A shallow embedding of [config.go] (data model, defaulting and
    validation, the parse entry points) together with the parts of the Go
    standard library and of the validator the configuration code calls
    into, followed by a logical-time model of the daemon exercised by
    [TestDaemonHappyPath]. *)

From Stdlib Require Import ZArith String Ascii List Bool Lia.
From stdpp Require Import base tactics option list gmap sets strings pretty.

Local Open Scope string_scope.
Local Open Scope list_scope.
Local Open Scope Z_scope.

(** ** Bytes of a Go string *)

Definition byte_of (c : ascii) : Z := Z.of_N (N_of_ascii c).

Definition is_digit (c : ascii) : bool :=
  (48 <=? byte_of c) && (byte_of c <=? 57).

Definition hex_value (c : ascii) : option Z :=
  let b := byte_of c in
  if (48 <=? b) && (b <=? 57) then Some (b - 48)
  else if (97 <=? b) && (b <=? 102) then Some (b - 97 + 10)
  else if (65 <=? b) && (b <=? 70) then Some (b - 65 + 10)
  else None.

Definition is_char (c d : ascii) : bool := bool_decide (c = d).

(** [bytealg.IndexByteString]: the text before and after the first [c]. *)
Fixpoint cut_first (c : ascii) (s : string) : option (string * string) :=
  match s with
  | EmptyString => None
  | String d s' =>
      if is_char d c then Some (EmptyString, s')
      else match cut_first c s' with
           | Some (a, b) => Some (String d a, b)
           | None => None
           end
  end.

(** [bytealg.LastIndexByteString]: the text before and after the last [c]. *)
Fixpoint cut_last (c : ascii) (s : string) : option (string * string) :=
  match s with
  | EmptyString => None
  | String d s' =>
      match cut_last c s' with
      | Some (a, b) => Some (String d a, b)
      | None => if is_char d c then Some (EmptyString, s') else None
      end
  end.

(** ** Go's [net/netip]: addresses, prefixes, parsing, overlap

    The configuration code calls [netip.ParsePrefix] and [Prefix.Overlaps];
    both belong to the Go standard library.  An address is the 128-bit value
    [addr] with its family tag [z]; IPv4 addresses are held in their
    IPv4-mapped form, as the library does. *)
Module netip.

Inductive zone : Type :=
  | z0                      (* the zero Addr, not an address *)
  | z4                      (* IPv4 *)
  | z6noz                   (* IPv6 without zone *)
  | z6zone (name : string). (* IPv6 with zone *)

#[global] Instance zone_eq_dec : EqDecision zone.
Proof. solve_decision. Defined.

Record Addr : Type := mkAddr { addr : Z; z : zone }.

#[global] Instance Addr_eq_dec : EqDecision Addr.
Proof. solve_decision. Defined.

Record Prefix : Type := mkPrefix { ip : Addr; bitsPlusOne : Z }.

#[global] Instance Prefix_eq_dec : EqDecision Prefix.
Proof. solve_decision. Defined.

Definition Is4 (a : Addr) : bool := bool_decide (z a = z4).

Definition Is6 (a : Addr) : bool :=
  negb (bool_decide (z a = z0)) && negb (bool_decide (z a = z4)).

Definition BitLen (a : Addr) : Z :=
  match z a with
  | z0 => 0
  | z4 => 32
  | _ => 128
  end.

Definition withoutZone (a : Addr) : Addr :=
  if Is6 a then mkAddr (addr a) z6noz else a.

Definition IsValid (p : Prefix) : bool := 0 <? bitsPlusOne p.

Definition Bits (p : Prefix) : Z := bitsPlusOne p - 1.

Definition PrefixFrom (a : Addr) (bits : Z) : Prefix :=
  let bpo :=
    if negb (bool_decide (z a = z0)) && (0 <=? bits) && (bits <=? BitLen a)
    then bits + 1 else 0 in
  mkPrefix (withoutZone a) bpo.

(** [mask6 n]: the 128-bit mask with the top [n] bits set. *)
Definition mask6 (n : Z) : Z := Z.shiftl (Z.ones n) (128 - n).

(** [Addr.Prefix]: keep the top [b] bits of the address. *)
Definition Addr_Prefix (a : Addr) (b : Z) : option Prefix :=
  if b <? 0 then None
  else match z a with
       | z0 => Some (mkPrefix (mkAddr 0 z0) 0)
       | z4 =>
           if 32 <? b then None
           else Some (PrefixFrom (mkAddr (Z.land (addr a) (mask6 (b + 96))) z4) b)
       | zn =>
           if 128 <? b then None
           else Some (PrefixFrom (mkAddr (Z.land (addr a) (mask6 b)) zn) b)
       end.

(** [Prefix.Overlaps]. *)
Definition Overlaps (p o : Prefix) : bool :=
  if negb (IsValid p) || negb (IsValid o) then false
  else if bool_decide (p = o) then true
  else if negb (eqb (Is4 (ip p)) (Is4 (ip o))) then false
  else
    let minBits := if Bits p <? Bits o then Bits p else Bits o in
    if minBits =? 0 then true
    else match Addr_Prefix (ip p) minBits, Addr_Prefix (ip o) minBits with
         | Some p', Some o' => bool_decide (ip p' = ip o')
         | _, _ => false
         end.

(** Big-endian value of a byte sequence. *)
Definition be_value (bs : list Z) : Z :=
  fold_left (fun acc b => acc * 256 + b) bs 0.

Definition AddrFrom4 (fields : list Z) : Addr :=
  mkAddr (Z.lor 0xffff00000000 (be_value fields)) z4.

Definition AddrFrom16 (bs : list Z) : Addr := mkAddr (be_value bs) z6noz.

(** [parseIPv4Fields]: four decimal octets separated by dots, no leading
    zero in an octet.  [prev] is the previous byte of the text, [val] and
    [digLen] describe the octet being read, [fields] the octets stored. *)
Fixpoint parseIPv4Fields (s : string) (prev : option ascii) (val : Z)
    (digLen : nat) (fields : list Z) : option (list Z) :=
  match s with
  | EmptyString =>
      if (length fields <? 3)%nat then None else Some (fields ++ [val])
  | String c s' =>
      if is_digit c then
        if (digLen =? 1)%nat && (val =? 0) then None
        else
          let val' := val * 10 + (byte_of c - 48) in
          if 255 <? val' then None
          else parseIPv4Fields s' (Some c) val' (S digLen) fields
      else if is_char c "." then
        if bool_decide (prev = None) || bool_decide (s' = EmptyString)
           || bool_decide (prev = Some "."%char)
        then None
        else if (length fields =? 3)%nat then None
        else parseIPv4Fields s' (Some c) 0 0%nat (fields ++ [val])
      else None
  end.

Definition parseIPv4 (s : string) : option Addr :=
  AddrFrom4 <$> parseIPv4Fields s None 0 0%nat [].

(** The hexadecimal field at the head of [s]: the number of digits, their
    value and the rest of the text; a fifth digit is an error. *)
Fixpoint hexField (s : string) (off : nat) (acc : Z)
    : option (nat * Z * string) :=
  match s with
  | EmptyString => Some (off, acc, s)
  | String c s' =>
      match hex_value c with
      | None => Some (off, acc, s)
      | Some d =>
          let acc' := Z.shiftl acc 4 + d in
          if (3 <? off)%nat then None
          else if 65535 <? acc' then None
          else hexField s' (S off) acc'
      end
  end.

(** The field loop of [parseIPv6]: [ip] holds the bytes stored so far (its
    length is the library's index [i]), [ellipsis] the byte position of a
    [::] seen.  The result is the state at loop exit. *)
Fixpoint parseIPv6_fields (fuel : nat) (s : string) (ip : list Z)
    (ellipsis : option nat) : option (string * list Z * option nat) :=
  match fuel with
  | O => Some (s, ip, ellipsis)
  | S fuel' =>
      let i := length ip in
      if (16 <=? i)%nat then Some (s, ip, ellipsis)
      else
        match hexField s 0%nat 0 with
        | None => None
        | Some (O, _, _) => None
        | Some (_, acc, rest) =>
            match rest with
            | String "." _ =>
                if bool_decide (ellipsis = None) && negb (i =? 12)%nat then None
                else if (16 <? i + 4)%nat then None
                else match parseIPv4Fields s None 0 0%nat [] with
                     | None => None
                     | Some f => Some (EmptyString, ip ++ f, ellipsis)
                     end
            | _ =>
                let ip' := ip ++ [Z.shiftr acc 8; Z.land acc 255] in
                match rest with
                | EmptyString => Some (EmptyString, ip', ellipsis)
                | String c rest1 =>
                    if negb (is_char c ":") then None
                    else
                      match rest1 with
                      | EmptyString => None
                      | String ":" rest2 =>
                          match ellipsis with
                          | Some _ => None
                          | None =>
                              match rest2 with
                              | EmptyString =>
                                  Some (EmptyString, ip', Some (length ip'))
                              | _ =>
                                  parseIPv6_fields fuel' rest2 ip'
                                    (Some (length ip'))
                              end
                          end
                      | _ => parseIPv6_fields fuel' rest1 ip' ellipsis
                      end
                end
            end
        end
  end.

Definition WithZone (a : Addr) (zn : string) : Addr :=
  if negb (Is6 a) then a
  else if bool_decide (zn = EmptyString) then mkAddr (addr a) z6noz
  else mkAddr (addr a) (z6zone zn).

Definition parseIPv6 (input : string) : option Addr :=
  let split :=
    match cut_first "%" input with
    | Some (s, zn) => if bool_decide (zn = EmptyString) then None else Some (s, zn)
    | None => Some (input, EmptyString)
    end in
  match split with
  | None => None
  | Some (s, zn) =>
      let start :=
        match s with
        | String ":" (String ":" s') => (s', Some 0%nat)
        | _ => (s, None)
        end in
      match start with
      | (EmptyString, Some _) => Some (WithZone (AddrFrom16 (replicate 16 0)) zn)
      | (s1, ell) =>
          match parseIPv6_fields 9 s1 [] ell with
          | None => None
          | Some (String _ _, _, _) => None
          | Some (EmptyString, bytes, ell') =>
              let i := length bytes in
              if (i <? 16)%nat then
                match ell' with
                | None => None
                | Some e =>
                    Some (WithZone
                            (AddrFrom16 (take e bytes ++ replicate (16 - i) 0
                                           ++ drop e bytes)) zn)
                end
              else
                match ell' with
                | Some _ => None
                | None => Some (WithZone (AddrFrom16 bytes) zn)
                end
          end
      end
  end.

(** [ParseAddr] dispatches on the first of ['.'], [':'] and ['%']. *)
Fixpoint ParseAddr_scan (whole s : string) : option Addr :=
  match s with
  | EmptyString => None
  | String c s' =>
      if is_char c "." then parseIPv4 whole
      else if is_char c ":" then parseIPv6 whole
      else if is_char c "%" then None
      else ParseAddr_scan whole s'
  end.

Definition ParseAddr (s : string) : option Addr := ParseAddr_scan s s.

(** Decimal value of a text made of digits only. *)
Fixpoint digits_value (s : string) (acc : Z) : option Z :=
  match s with
  | EmptyString => Some acc
  | String c s' =>
      if is_digit c then digits_value s' (acc * 10 + (byte_of c - 48)) else None
  end.

(** The prefix length as [ParsePrefix] reads it: [strconv.Atoi] on a text
    that has no sign and no leading zero. *)
Definition parse_bits (bitsStr : string) : option Z :=
  match bitsStr with
  | EmptyString => None
  | String c EmptyString => digits_value bitsStr 0
  | String c _ =>
      if (byte_of c <? 49) || (57 <? byte_of c) then None
      else digits_value bitsStr 0
  end.

Definition ParsePrefix (s : string) : option Prefix :=
  match cut_last "/" s with
  | None => None
  | Some (a, bitsStr) =>
      match ParseAddr a with
      | None => None
      | Some ip =>
          if Is6 ip && negb (bool_decide (z ip = z6noz)) then None
          else
            match parse_bits bitsStr with
            | None => None
            | Some bits =>
                let maxBits := if Is6 ip then 128 else 32 in
                if (bits <? 0) || (maxBits <? bits) then None
                else Some (PrefixFrom ip bits)
            end
      end
  end.

End netip.

(** ** Go's [net.ParseCIDR] as far as the validator's [cidrv6] uses it *)
Module net.

(** [dtoi]: the leading decimal digits of [s], their count, and whether
    there was at least one digit and no overflow past [0xFFFFFF]. *)
Fixpoint dtoi_loop (s : string) (n : Z) (i : nat) : Z * nat * bool :=
  match s with
  | EmptyString => (n, i, negb (i =? 0)%nat)
  | String c s' =>
      if is_digit c then
        let n' := n * 10 + (byte_of c - 48) in
        if 0xFFFFFF <=? n' then (0xFFFFFF, i, false)
        else dtoi_loop s' n' (S i)
      else (n, i, negb (i =? 0)%nat)
  end.

Definition dtoi (s : string) : Z * nat * bool := dtoi_loop s 0 0%nat.

(** [ParseCIDR] returns the address in its 16-byte form; [IP.To4] of that
    form is non-nil exactly for an IPv4 or IPv4-mapped address.  The result
    here is the address together with that [To4] test. *)
Definition ParseCIDR (s : string) : option netip.Addr :=
  match cut_first "/" s with
  | None => None
  | Some (a, mask) =>
      match netip.ParseAddr a with
      | None => None
      | Some ipAddr =>
          match netip.z ipAddr with
          | netip.z6zone _ => None
          | _ =>
              let '(n, i, ok) := dtoi mask in
              if negb ok || negb (i =? String.length mask)%nat
                 || (n <? 0) || (netip.BitLen ipAddr <? n)
              then None
              else Some ipAddr
          end
      end
  end.

Definition To4_is_nil (a : netip.Addr) : bool :=
  negb (Z.shiftr (netip.addr a) 32 =? 0xffff).

End net.

(** ** The data model of [config.go]

    A Go [int] is held as a [Z]; defaulting and validation only compare
    these fields with constants and with each other.  A pointer is an
    [option] ([None] is [nil]); a slice is an [option] of a list, so that the
    [nil] slice and the empty slice stay apart as [required] tells them
    apart. *)

Definition slice (A : Type) : Type := option (list A).

Definition slice_elems {A : Type} (s : slice A) : list A :=
  match s with
  | None => []
  | Some l => l
  end.

Record PrefixConfig : Type := mkPrefixConfig {
  Prefix : string;
  OnLink : bool;
  Autonomous : bool;
  ValidLifetimeSeconds : option Z;
  PreferredLifetimeSeconds : option Z
}.

Record InterfaceConfig : Type := mkInterfaceConfig {
  Name : string;
  RAIntervalMilliseconds : Z;
  CurrentHopLimit : Z;
  Managed : bool;
  Other : bool;
  RouterLifetimeSeconds : Z;
  ReachableTimeMilliseconds : Z;
  RetransmitTimeMilliseconds : Z;
  Prefixes : slice (option PrefixConfig)
}.

Record Config : Type := mkConfig {
  Interfaces : slice (option InterfaceConfig)
}.

(** ** [defaults.Set] on the three structs

    The [default:] tags of the source: an [int] field holding its zero value
    receives the tag's value; a [nil] [*int] is allocated and receives it; a
    non-nil [*int] is left alone, also when it points to 0.  Fields without
    a tag are only traversed: a non-empty slice element by element, a non-nil
    struct pointer into its struct; [nil] elements stay [nil]. *)
Module defaults.

Definition set_int (defaultVal v : Z) : Z :=
  if v =? 0 then defaultVal else v.

Definition set_int_ptr (defaultVal : Z) (p : option Z) : option Z :=
  match p with
  | None => Some (set_int defaultVal 0)
  | Some v => Some v
  end.

Definition set_slice {A : Type} (f : A -> A) (s : slice (option A))
    : slice (option A) :=
  match s with
  | None => None
  | Some l => Some (map (option_map f) l)
  end.

Definition Set_PrefixConfig (p : PrefixConfig) : PrefixConfig :=
  {| Prefix := Prefix p;
     OnLink := OnLink p;
     Autonomous := Autonomous p;
     ValidLifetimeSeconds := set_int_ptr 2592000 (ValidLifetimeSeconds p);
     PreferredLifetimeSeconds := set_int_ptr 604800 (PreferredLifetimeSeconds p) |}.

Definition Set_InterfaceConfig (i : InterfaceConfig) : InterfaceConfig :=
  {| Name := Name i;
     RAIntervalMilliseconds := set_int 600000 (RAIntervalMilliseconds i);
     CurrentHopLimit := set_int 0 (CurrentHopLimit i);
     Managed := Managed i;
     Other := Other i;
     RouterLifetimeSeconds := RouterLifetimeSeconds i;
     ReachableTimeMilliseconds := ReachableTimeMilliseconds i;
     RetransmitTimeMilliseconds := RetransmitTimeMilliseconds i;
     Prefixes := set_slice Set_PrefixConfig (Prefixes i) |}.

Definition Set_Config (c : Config) : Config :=
  {| Interfaces := set_slice Set_InterfaceConfig (Interfaces c) |}.

End defaults.

(** ** The validator: tag chains, [dive], field errors

    [validate.Struct] visits the fields of a struct in declaration order.
    The tags of a field run from left to right and the first one that fails
    is reported as the field's error, the rest of the chain (a [dive]
    included) being skipped.  [dive] applies the tags that follow it to every
    element of the slice; an element that is a non-nil struct pointer is then
    validated as a struct. *)
Module validator.

Record FieldError : Type := mkFieldError { Namespace : string; Tag : string }.

Abbreviation ValidationErrors := (list FieldError).

(** The tag that fails first, if any. *)
Fixpoint run_tags {A : Type} (tags : list (string * (A -> bool))) (v : A)
    : option string :=
  match tags with
  | [] => None
  | (t, fn) :: rest => if fn v then run_tags rest v else Some t
  end.

(** A field whose value is not a pointer. *)
Definition traverseField {A : Type} (ns name : string)
    (tags : list (string * (A -> bool))) (v : A) : ValidationErrors :=
  match run_tags tags v with
  | Some t => [mkFieldError (ns +:+ name) t]
  | None => []
  end.

(** A pointer field: [nil] fails the first tag without running it; otherwise
    the chain runs on the value pointed to. *)
Definition traverseField_ptr {A : Type} (ns name : string)
    (tags : list (string * (A -> bool))) (p : option A) : ValidationErrors :=
  match p with
  | None =>
      match tags with
      | [] => []
      | (t, _) :: _ => [mkFieldError (ns +:+ name) t]
      end
  | Some v => traverseField ns name tags v
  end.

Definition elem_name (name : string) (i : nat) : string :=
  name +:+ "[" +:+ pretty i +:+ "]".

(** A slice of struct pointers tagged [<tags>,dive,required]. *)
Definition traverseField_dive {A : Type} (ns name : string)
    (tags : list (string * (slice (option A) -> bool)))
    (validateStruct : string -> A -> ValidationErrors)
    (s : slice (option A)) : ValidationErrors :=
  match run_tags tags s with
  | Some t => [mkFieldError (ns +:+ name) t]
  | None =>
      concat (imap (fun i e =>
                      match e with
                      | None => [mkFieldError (ns +:+ elem_name name i) "required"]
                      | Some x => validateStruct (ns +:+ elem_name name i +:+ ".") x
                      end)
                   (slice_elems s))
  end.

(** Baked-in validation functions, at the kinds the source uses them. *)

Definition hasValue_string (s : string) : bool :=
  negb (bool_decide (s = EmptyString)).

Definition hasValue_int (fldIsPointer : bool) (v : Z) : bool :=
  fldIsPointer || negb (v =? 0).

Definition hasValue_slice {A : Type} (s : slice A) : bool :=
  match s with
  | None => false
  | Some _ => true
  end.

Definition isGte (param v : Z) : bool := param <=? v.

Definition isLte (param v : Z) : bool := v <=? param.

(** [ltefield] against a sibling [*int] field: a [nil] sibling is not of the
    field's kind and fails. *)
Definition isLteField (sibling : option Z) (v : Z) : bool :=
  match sibling with
  | None => false
  | Some o => v <=? o
  end.

Definition isCIDRv6 (s : string) : bool :=
  match net.ParseCIDR s with
  | None => false
  | Some a => net.To4_is_nil a
  end.

End validator.

Import validator.

(** ** [defaultAndValidate] *)

(** The custom validation [non_nil_and_unique_name]: [names] is the map of
    the names seen so far. *)
Fixpoint non_nil_and_unique_name_loop (names : gset string)
    (ifaceSlice : list (option InterfaceConfig)) : bool :=
  match ifaceSlice with
  | [] => true
  | None :: _ => false
  | Some iface :: rest =>
      if bool_decide (Name iface ∈ names) then false
      else non_nil_and_unique_name_loop ({[Name iface]} ∪ names) rest
  end.

Definition non_nil_and_unique_name (fl : slice (option InterfaceConfig)) : bool :=
  non_nil_and_unique_name_loop ∅ (slice_elems fl).

(** First loop of [non_nil_and_non_overlapping_prefix]: [None] when an
    element is [nil] (the validation returns false), otherwise [prefixes]
    extended with the prefixes that parse, in order; a text that does not
    parse is skipped. *)
Fixpoint collect_prefixes (prefixes : list netip.Prefix)
    (prefixSlice : list (option PrefixConfig)) : option (list netip.Prefix) :=
  match prefixSlice with
  | [] => Some prefixes
  | None :: _ => None
  | Some prefixElem :: rest =>
      match netip.ParsePrefix (Prefix prefixElem) with
      | None => collect_prefixes prefixes rest
      | Some p => collect_prefixes (prefixes ++ [p]) rest
      end
  end.

(** Second loop: every ordered pair of collected prefixes. *)
Definition no_overlap (prefixes : list netip.Prefix) : bool :=
  forallb (fun p0 =>
             forallb (fun p1 =>
                        negb (bool_decide (p0 ≠ p1) && netip.Overlaps p0 p1))
                     prefixes)
          prefixes.

Definition non_nil_and_non_overlapping_prefix
    (fl : slice (option PrefixConfig)) : bool :=
  match collect_prefixes [] (slice_elems fl) with
  | None => false
  | Some prefixes => no_overlap prefixes
  end.

(** The [validate:] tags of the three structs. *)

Definition Prefix_tags : list (string * (string -> bool)) :=
  [("required", hasValue_string); ("cidrv6", isCIDRv6)].

Definition ValidLifetimeSeconds_tags : list (string * (Z -> bool)) :=
  [("required", hasValue_int true); ("gte", isGte 0); ("lte", isLte 4294967295)].

Definition PreferredLifetimeSeconds_tags (valid : option Z)
    : list (string * (Z -> bool)) :=
  [("required", hasValue_int true); ("gte", isGte 0);
   ("ltefield", isLteField valid)].

Definition validate_PrefixConfig (ns : string) (p : PrefixConfig)
    : ValidationErrors :=
  traverseField ns "Prefix" Prefix_tags (Prefix p)
  ++ traverseField_ptr ns "ValidLifetimeSeconds" ValidLifetimeSeconds_tags
       (ValidLifetimeSeconds p)
  ++ traverseField_ptr ns "PreferredLifetimeSeconds"
       (PreferredLifetimeSeconds_tags (ValidLifetimeSeconds p))
       (PreferredLifetimeSeconds p).

Definition Name_tags : list (string * (string -> bool)) :=
  [("required", hasValue_string)].

Definition RAIntervalMilliseconds_tags : list (string * (Z -> bool)) :=
  [("required", hasValue_int false); ("gte", isGte 70); ("lte", isLte 1800000)].

Definition CurrentHopLimit_tags : list (string * (Z -> bool)) :=
  [("gte", isGte 0); ("lte", isLte 255)].

Definition RouterLifetimeSeconds_tags : list (string * (Z -> bool)) :=
  [("gte", isGte 0); ("lte", isLte 65535)].

Definition ReachableTimeMilliseconds_tags : list (string * (Z -> bool)) :=
  [("gte", isGte 0); ("lte", isLte 4294967295)].

Definition RetransmitTimeMilliseconds_tags : list (string * (Z -> bool)) :=
  [("gte", isGte 0); ("lte", isLte 4294967295)].

Definition Prefixes_tags : list (string * (slice (option PrefixConfig) -> bool)) :=
  [("non_nil_and_non_overlapping_prefix", non_nil_and_non_overlapping_prefix)].

Definition validate_InterfaceConfig (ns : string) (i : InterfaceConfig)
    : ValidationErrors :=
  traverseField ns "Name" Name_tags (Name i)
  ++ traverseField ns "RAIntervalMilliseconds" RAIntervalMilliseconds_tags
       (RAIntervalMilliseconds i)
  ++ traverseField ns "CurrentHopLimit" CurrentHopLimit_tags (CurrentHopLimit i)
  ++ traverseField ns "RouterLifetimeSeconds" RouterLifetimeSeconds_tags
       (RouterLifetimeSeconds i)
  ++ traverseField ns "ReachableTimeMilliseconds" ReachableTimeMilliseconds_tags
       (ReachableTimeMilliseconds i)
  ++ traverseField ns "RetransmitTimeMilliseconds" RetransmitTimeMilliseconds_tags
       (RetransmitTimeMilliseconds i)
  ++ traverseField_dive ns "Prefixes" Prefixes_tags validate_PrefixConfig
       (Prefixes i).

Definition Interfaces_tags
    : list (string * (slice (option InterfaceConfig) -> bool)) :=
  [("required", hasValue_slice);
   ("non_nil_and_unique_name", non_nil_and_unique_name)].

(** [validate.Struct(c)]. *)
Definition validate_Struct (c : Config) : ValidationErrors :=
  traverseField_dive "Config." "Interfaces" Interfaces_tags
    validate_InterfaceConfig (Interfaces c).

(** [defaultAndValidate] fills the defaults into the configuration it is
    called on and returns the validation errors, [None] standing for the
    [nil] error.  Neither [panic] of the source is reachable: [defaults.Set]
    fails only on a value that is not a struct pointer or on a malformed
    [default:] tag of a slice, map or struct, and [validate.Struct] yields an
    [InvalidValidationError] only for a value that is not a struct. *)
Definition defaultAndValidate (c : Config) : Config * option ValidationErrors :=
  let c' := defaults.Set_Config c in
  (c', match validate_Struct c' with
       | [] => None
       | verrs => Some verrs
       end).

(** The error [defaultAndValidate] returns. *)
Definition validation_error (c : Config) : option ValidationErrors :=
  snd (defaultAndValidate c).

(** ** The parse entry points

    Decoding and the file system are not the repository's code.  A reader
    stands for the text it yields; [json_Decode r] and [yaml_Decode r] are
    the result of [json.NewDecoder(r).Decode(&c)] and
    [yaml.NewDecoder(r).Decode(&c)] on a fresh [Config], the decoded
    configuration or the decoder's error; [os_Open] is [os.Open].  The Go
    result, a pointer to [Config] and an [error], is a pair of options. *)
Section Parse.

Variable Reader : Type.
Variable error : Type.
Variable json_Decode : Reader -> Config + error.
Variable yaml_Decode : Reader -> Config + error.
Variable os_Open : string -> Reader + error.

Definition ParseConfigJSON (r : Reader) : option Config * option error :=
  match json_Decode r with
  | inr err => (None, Some err)
  | inl c => (Some c, None)
  end.

Definition ParseConfigYAML (r : Reader) : option Config * option error :=
  match yaml_Decode r with
  | inr err => (None, Some err)
  | inl c => (Some c, None)
  end.

Definition ParseConfigYAMLFile (path : string) : option Config * option error :=
  match os_Open path with
  | inr err => (None, Some err)
  | inl f => ParseConfigYAML f
  end.

End Parse.

Arguments ParseConfigJSON {Reader error} json_Decode r.
Arguments ParseConfigYAML {Reader error} yaml_Decode r.
Arguments ParseConfigYAMLFile {Reader error} yaml_Decode os_Open path.

(** The lifetimes a prefix entry is validated with: the fields after
    defaulting. *)
Definition effective_valid (p : PrefixConfig) : Z :=
  default 2592000 (ValidLifetimeSeconds p).

Definition effective_preferred (p : PrefixConfig) : Z :=
  default 604800 (PreferredLifetimeSeconds p).

(** * The daemon

    The daemon (its [New], [Run] and [Reload], the announcers and the socket
    interface) is not among the source files; [TestDaemonHappyPath] drives
    it.  What follows models it from the specification, in logical time:
    the clock counts milliseconds, one [Tick] is one millisecond, and
    starting, stopping and sending take no time.  The payload of an
    advertisement is left out; a send is recorded by its timestamp, as the
    fake socket of the test does. *)

(** Modelled from the spec: the Socket capability of section 6 ([send],
    [close], [isClosed]), in the shape of the test's fake socket, which keeps
    the timestamps of the advertisements sent through it (newest first). *)
Record Socket : Type := mkSocket {
  sock_iface : string;
  isClosed : bool;
  tx : list Z
}.

(** Modelled from the spec: [send] on a Socket; a closed socket takes no
    advertisement. *)
Definition Socket_send (t : Z) (s : Socket) : Socket :=
  if isClosed s then s else mkSocket (sock_iface s) false (t :: tx s).

(** Modelled from the spec: [close] on a Socket, idempotent. *)
Definition Socket_close (s : Socket) : Socket :=
  mkSocket (sock_iface s) true (tx s).

(** Modelled from the spec: the Announcer state of section 3, the current
    interval, the owned Socket and the timer, held as the time of the next
    send. *)
Record Announcer : Type := mkAnnouncer {
  interval : Z;
  deadline : Z;
  sock : Socket
}.

(** Modelled from the spec: the Orchestrator of section 4.1.  [newSock] is
    the injected socket constructor (whether opening a socket on the named
    interface succeeds), [config] the configuration given to [New], [live]
    the map from interface name to Announcer, [closedSocks] the sockets of
    the announcers torn down so far, oldest first. *)
Record Daemon : Type := mkDaemon {
  newSock : string -> bool;
  config : Config;
  now : Z;
  running : bool;
  live : gmap string Announcer;
  closedSocks : list Socket
}.

(** Modelled from the spec: the interfaces a configuration asks for, by
    name. *)
Definition desired (c : Config) : gmap string InterfaceConfig :=
  list_to_map ((fun i => (Name i, i)) <$> omap id (slice_elems (Interfaces c))).

(** Modelled from the spec: the Starting state of section 4.2.  The socket
    is acquired from the constructor and the first send is due one full
    interval after the start. *)
Definition Announcer_start (t : Z) (ic : InterfaceConfig) : Announcer :=
  mkAnnouncer (RAIntervalMilliseconds ic) (t + RAIntervalMilliseconds ic)
    (mkSocket (Name ic) false []).

(** Modelled from the spec: the four cases of [Reload] for one interface
    name, [want] being its entry in the new configuration and [have] its
    live Announcer.  Present only in the configuration: started, unless the
    constructor fails.  Present in both with the same interval: left
    untouched.  Present in both with another interval: updated in place,
    the timer restarted with the new interval.  Absent from the
    configuration: no Announcer. *)
Definition reconcile_one (open : string -> bool) (t : Z)
    (want : option InterfaceConfig) (have : option Announcer)
    : option Announcer :=
  match want, have with
  | Some ic, None =>
      if open (Name ic) then Some (Announcer_start t ic) else None
  | Some ic, Some a =>
      if interval a =? RAIntervalMilliseconds ic then Some a
      else Some (mkAnnouncer (RAIntervalMilliseconds ic)
                   (t + RAIntervalMilliseconds ic) (sock a))
  | None, _ => None
  end.

(** Modelled from the spec: the sockets, closed, of the live announcers
    whose name satisfies [gone]. *)
Definition stopped_sockets (gone : string -> bool)
    (m : gmap string Announcer) : list Socket :=
  (fun na => Socket_close (sock (snd na)))
    <$> filter (fun na => gone (fst na) = true) (map_to_list m).

(** Modelled from the spec: reconciliation of the live set with a
    configuration. *)
Definition reconcile (d : Daemon) (c : Config) : Daemon :=
  let want := desired c in
  {| newSock := newSock d;
     config := config d;
     now := now d;
     running := running d;
     live := merge (reconcile_one (newSock d) (now d)) want (live d);
     closedSocks :=
       closedSocks d
       ++ stopped_sockets (fun name => bool_decide (want !! name = None)) (live d) |}.

(** Modelled from the spec: the interfaces of the configuration for which no
    socket could be opened, reported by [Reload] as its partial error. *)
Definition failed_interfaces (d : Daemon) (c : Config) : list string :=
  filter (fun name => live d !! name = None /\ newSock d name = false)
         (fst <$> map_to_list (desired c)).

(** Modelled from the spec: the Running state, one millisecond later.  An
    announcer whose timer has run out sends one advertisement and waits one
    interval again. *)
Definition Announcer_tick (t : Z) (a : Announcer) : Announcer :=
  if deadline a <=? t
  then mkAnnouncer (interval a) (t + interval a) (Socket_send t (sock a))
  else a.

(** Modelled from the spec: one millisecond passes for the daemon; the
    announcers run independently of each other. *)
Definition tick (d : Daemon) : Daemon :=
  {| newSock := newSock d;
     config := config d;
     now := now d + 1;
     running := running d;
     live := Announcer_tick (now d + 1) <$> live d;
     closedSocks := closedSocks d |}.

(** Modelled from the spec: the errors of [New] and [Reload]. *)
Inductive DaemonError : Type :=
  | ErrConfig (verrs : ValidationErrors)
  | ErrSockets (ifaces : list string)
  | ErrNotRunning.

(** Modelled from the spec: [New].  The configuration is validated as it is
    passed to the daemon; no socket is opened and nothing runs yet. *)
Definition New (c : Config) (open : string -> bool) : Daemon + DaemonError :=
  match defaultAndValidate c with
  | (_, Some verrs) => inr (ErrConfig verrs)
  | (c', None) =>
      inl {| newSock := open; config := c'; now := 0; running := false;
             live := ∅; closedSocks := [] |}
  end.

(** Modelled from the spec: [Reload].  A configuration that fails
    validation changes nothing; otherwise the live set is reconciled, and
    the sockets that could not be opened are the partial error. *)
Definition Reload (d : Daemon) (newConfig : Config)
    : Daemon * option DaemonError :=
  if negb (running d) then (d, Some ErrNotRunning)
  else
    match defaultAndValidate newConfig with
    | (_, Some verrs) => (d, Some (ErrConfig verrs))
    | (c', None) =>
        (reconcile d c',
         match failed_interfaces d c' with
         | [] => None
         | ifaces => Some (ErrSockets ifaces)
         end)
    end.

(** Modelled from the spec: cancellation of the context of [Run].  Every
    live Announcer stops and its Socket is closed; only then [Run] returns,
    which is when [running] turns false. *)
Definition cancel (d : Daemon) : Daemon :=
  {| newSock := newSock d;
     config := config d;
     now := now d;
     running := false;
     live := ∅;
     closedSocks := closedSocks d ++ stopped_sockets (fun _ => true) (live d) |}.

(** Modelled from the spec: what happens to a daemon, one event at a time. *)
Inductive event : Type :=
  | Tick
  | DoReload (newConfig : Config)
  | Cancel.

(** Modelled from the spec: the effect of one event.  Cancelling a daemon
    whose [Run] has returned does nothing. *)
Definition step (d : Daemon) (e : event) : Daemon :=
  match e with
  | Tick => tick d
  | DoReload newConfig => fst (Reload d newConfig)
  | Cancel => if running d then cancel d else d
  end.

(** Modelled from the spec: the events of a history, one after the other. *)
Definition steps (d : Daemon) (es : list event) : Daemon := fold_left step es d.

(** Modelled from the spec: [Run] enters the steady state with the initial
    reconciliation against the configuration given to [New], then lives
    through the events. *)
Definition Run_enter (d : Daemon) : Daemon :=
  reconcile {| newSock := newSock d; config := config d; now := now d;
               running := true; live := live d; closedSocks := closedSocks d |}
            (config d).

(** Modelled from the spec: the daemon after [Run] was called and the events
    [es] happened. *)
Definition Run (d : Daemon) (es : list event) : Daemon := steps (Run_enter d) es.

(** Modelled from the spec: the sockets of a daemon, those owned by the live
    announcers and the closed ones. *)
Definition sockets (d : Daemon) : list Socket :=
  (sock ∘ snd <$> map_to_list (live d)) ++ closedSocks d.

(** Modelled from the spec: the timestamps of [m] sends spaced by [I], the
    first one [I] after [t0], newest first. *)
Fixpoint sends_at (t0 I : Z) (m : nat) : list Z :=
  match m with
  | O => []
  | S m' => (t0 + I * Z.of_nat m) :: sends_at t0 I m'
  end.

(** Modelled from the spec: an announcer [n] milliseconds after the time
    [t]. *)
Fixpoint Announcer_ticks (t : Z) (n : nat) (a : Announcer) : Announcer :=
  match n with
  | O => a
  | S n' => Announcer_tick (t + Z.of_nat n) (Announcer_ticks t n' a)
  end.

(** Modelled from the spec: [later s s'] relates a socket to its state some
    time on: the same interface, the sends of [s] and perhaps newer ones,
    and nothing changed if [s] was closed. *)
Definition later (s s' : Socket) : Prop :=
  sock_iface s' = sock_iface s /\ tx s `suffix_of` tx s' /\
  (isClosed s = true -> s' = s).

(** Modelled from the spec: the invariant of the daemon.  Every live
    announcer owns an open socket on its own interface, has a validated
    interval and a timer due within one interval from now; the sockets set
    aside are closed; a daemon that is not running has no announcer. *)
Record wf (d : Daemon) : Prop := mk_wf {
  wf_live : forall name a, live d !! name = Some a ->
    isClosed (sock a) = false /\ sock_iface (sock a) = name /\
    70 <= interval a <= 1800000 /\
    now d < deadline a <= now d + interval a;
  wf_closed : forall s, s ∈ closedSocks d -> isClosed s = true;
  wf_stopped : running d = false -> live d = ∅
}.

(** ** The constraints of [config.go], said once more without the validator

    What the [validate:] tags and the two custom validations of
    [defaultAndValidate] ask of a configuration whose defaults are filled
    in, written as plain conditions on the data. *)

Definition PrefixConfig_valid (p : PrefixConfig) : Prop :=
  Prefix p <> EmptyString /\ isCIDRv6 (Prefix p) = true /\
  exists valid preferred,
    ValidLifetimeSeconds p = Some valid /\
    PreferredLifetimeSeconds p = Some preferred /\
    0 <= preferred <= valid /\ valid <= 4294967295.

(** No two entries parse to different prefixes that overlap. *)
Definition prefixes_disjoint (ps : list PrefixConfig) : Prop :=
  forall a b p0 p1,
    a ∈ ps -> b ∈ ps ->
    netip.ParsePrefix (Prefix a) = Some p0 ->
    netip.ParsePrefix (Prefix b) = Some p1 ->
    p0 <> p1 -> netip.Overlaps p0 p1 = false.

Definition InterfaceConfig_valid (i : InterfaceConfig) : Prop :=
  Name i <> EmptyString /\
  70 <= RAIntervalMilliseconds i <= 1800000 /\
  0 <= CurrentHopLimit i <= 255 /\
  0 <= RouterLifetimeSeconds i <= 65535 /\
  0 <= ReachableTimeMilliseconds i <= 4294967295 /\
  0 <= RetransmitTimeMilliseconds i <= 4294967295 /\
  exists ps, slice_elems (Prefixes i) = Some <$> ps /\
             prefixes_disjoint ps /\ Forall PrefixConfig_valid ps.

Definition Config_valid (c : Config) : Prop :=
  exists ifs, Interfaces c = Some (Some <$> ifs) /\
              NoDup (Name <$> ifs) /\ Forall InterfaceConfig_valid ifs.

(** The ways a scalar field of an interface fails its tags: the field's
    name and the first tag of its chain that fails. *)
Inductive interface_field_failure (i : InterfaceConfig) : string -> string -> Prop :=
  | Name_required :
      Name i = EmptyString -> interface_field_failure i "Name" "required"
  | RAInterval_required :
      RAIntervalMilliseconds i = 0 ->
      interface_field_failure i "RAIntervalMilliseconds" "required"
  | RAInterval_gte :
      RAIntervalMilliseconds i <> 0 -> RAIntervalMilliseconds i < 70 ->
      interface_field_failure i "RAIntervalMilliseconds" "gte"
  | RAInterval_lte :
      1800000 < RAIntervalMilliseconds i ->
      interface_field_failure i "RAIntervalMilliseconds" "lte"
  | CurrentHopLimit_gte :
      CurrentHopLimit i < 0 -> interface_field_failure i "CurrentHopLimit" "gte"
  | CurrentHopLimit_lte :
      255 < CurrentHopLimit i -> interface_field_failure i "CurrentHopLimit" "lte"
  | RouterLifetime_gte :
      RouterLifetimeSeconds i < 0 ->
      interface_field_failure i "RouterLifetimeSeconds" "gte"
  | RouterLifetime_lte :
      65535 < RouterLifetimeSeconds i ->
      interface_field_failure i "RouterLifetimeSeconds" "lte"
  | ReachableTime_gte :
      ReachableTimeMilliseconds i < 0 ->
      interface_field_failure i "ReachableTimeMilliseconds" "gte"
  | ReachableTime_lte :
      4294967295 < ReachableTimeMilliseconds i ->
      interface_field_failure i "ReachableTimeMilliseconds" "lte"
  | RetransmitTime_gte :
      RetransmitTimeMilliseconds i < 0 ->
      interface_field_failure i "RetransmitTimeMilliseconds" "gte"
  | RetransmitTime_lte :
      4294967295 < RetransmitTimeMilliseconds i ->
      interface_field_failure i "RetransmitTimeMilliseconds" "lte".

(** The same for the fields of a prefix entry. *)
Inductive prefix_field_failure (p : PrefixConfig) : string -> string -> Prop :=
  | Prefix_required :
      Prefix p = EmptyString -> prefix_field_failure p "Prefix" "required"
  | Prefix_cidrv6 :
      Prefix p <> EmptyString -> isCIDRv6 (Prefix p) = false ->
      prefix_field_failure p "Prefix" "cidrv6"
  | ValidLifetime_required :
      ValidLifetimeSeconds p = None ->
      prefix_field_failure p "ValidLifetimeSeconds" "required"
  | ValidLifetime_gte v :
      ValidLifetimeSeconds p = Some v -> v < 0 ->
      prefix_field_failure p "ValidLifetimeSeconds" "gte"
  | ValidLifetime_lte v :
      ValidLifetimeSeconds p = Some v -> 4294967295 < v ->
      prefix_field_failure p "ValidLifetimeSeconds" "lte"
  | PreferredLifetime_required :
      PreferredLifetimeSeconds p = None ->
      prefix_field_failure p "PreferredLifetimeSeconds" "required"
  | PreferredLifetime_gte w :
      PreferredLifetimeSeconds p = Some w -> w < 0 ->
      prefix_field_failure p "PreferredLifetimeSeconds" "gte"
  | PreferredLifetime_ltefield w :
      PreferredLifetimeSeconds p = Some w -> 0 <= w ->
      (forall v, ValidLifetimeSeconds p = Some v -> v < w) ->
      prefix_field_failure p "PreferredLifetimeSeconds" "ltefield".

(** The name space the validator gives the interface at position [k], and
    the prefix entry at position [j] of it. *)
Definition interface_ns (k : nat) : string :=
  "Config." +:+ elem_name "Interfaces" k +:+ ".".

Definition prefix_ns (k j : nat) : string :=
  interface_ns k +:+ elem_name "Prefixes" j +:+ ".".

(** A configuration with its four flags ([Managed], [Other], [OnLink],
    [Autonomous]) overwritten everywhere by given values. *)
Definition PrefixConfig_with_flags (onLink autonomous : bool) (p : PrefixConfig)
    : PrefixConfig :=
  {| Prefix := Prefix p;
     OnLink := onLink;
     Autonomous := autonomous;
     ValidLifetimeSeconds := ValidLifetimeSeconds p;
     PreferredLifetimeSeconds := PreferredLifetimeSeconds p |}.

Definition InterfaceConfig_with_flags (managed other onLink autonomous : bool)
    (i : InterfaceConfig) : InterfaceConfig :=
  {| Name := Name i;
     RAIntervalMilliseconds := RAIntervalMilliseconds i;
     CurrentHopLimit := CurrentHopLimit i;
     Managed := managed;
     Other := other;
     RouterLifetimeSeconds := RouterLifetimeSeconds i;
     ReachableTimeMilliseconds := ReachableTimeMilliseconds i;
     RetransmitTimeMilliseconds := RetransmitTimeMilliseconds i;
     Prefixes :=
       defaults.set_slice (PrefixConfig_with_flags onLink autonomous)
         (Prefixes i) |}.

Definition Config_with_flags (managed other onLink autonomous : bool)
    (c : Config) : Config :=
  {| Interfaces :=
       defaults.set_slice
         (InterfaceConfig_with_flags managed other onLink autonomous)
         (Interfaces c) |}.

(** ** Writing one field of a configuration anew

    An interface with another interval, a prefix entry with other
    lifetimes, and a configuration in which the entry at one position is
    replaced (a position outside the slice changes nothing). *)

Definition with_interval (ms : Z) (i : InterfaceConfig) : InterfaceConfig :=
  {| Name := Name i;
     RAIntervalMilliseconds := ms;
     CurrentHopLimit := CurrentHopLimit i;
     Managed := Managed i;
     Other := Other i;
     RouterLifetimeSeconds := RouterLifetimeSeconds i;
     ReachableTimeMilliseconds := ReachableTimeMilliseconds i;
     RetransmitTimeMilliseconds := RetransmitTimeMilliseconds i;
     Prefixes := Prefixes i |}.

Definition with_lifetimes (valid preferred : option Z) (p : PrefixConfig)
    : PrefixConfig :=
  {| Prefix := Prefix p;
     OnLink := OnLink p;
     Autonomous := Autonomous p;
     ValidLifetimeSeconds := valid;
     PreferredLifetimeSeconds := preferred |}.

Definition replace_prefix (j : nat) (p : PrefixConfig) (i : InterfaceConfig)
    : InterfaceConfig :=
  {| Name := Name i;
     RAIntervalMilliseconds := RAIntervalMilliseconds i;
     CurrentHopLimit := CurrentHopLimit i;
     Managed := Managed i;
     Other := Other i;
     RouterLifetimeSeconds := RouterLifetimeSeconds i;
     ReachableTimeMilliseconds := ReachableTimeMilliseconds i;
     RetransmitTimeMilliseconds := RetransmitTimeMilliseconds i;
     Prefixes := option_map (fun ps => <[j := Some p]> ps) (Prefixes i) |}.

Definition replace_interface (k : nat) (i : InterfaceConfig) (c : Config)
    : Config :=
  {| Interfaces := option_map (fun l => <[k := Some i]> l) (Interfaces c) |}.

(** * Configurations and runs used in the examples *)

Definition nil_interface_config : Config :=
  {| Interfaces :=
       Some [Some (mkInterfaceConfig "net0" 100 0 false false 0 0 0 None);
             None] |}.

Definition duplicate_name_config : Config :=
  {| Interfaces :=
       Some [Some (mkInterfaceConfig "net0" 100 0 false false 0 0 0 None);
             Some (mkInterfaceConfig "net1" 100 0 false false 0 0 0 None);
             Some (mkInterfaceConfig "net0" 200 0 false false 0 0 0 None)] |}.

(** Whether two prefix texts, both parsed by [netip.ParsePrefix], overlap. *)
Definition overlap_of_texts (s1 s2 : string) : option bool :=
  match netip.ParsePrefix s1, netip.ParsePrefix s2 with
  | Some a, Some b => Some (netip.Overlaps a b)
  | _, _ => None
  end.

Definition p64 : netip.Prefix :=
  netip.mkPrefix (netip.mkAddr (Z.shiftl 0x20010db8 96) netip.z6noz) 65.

Definition equal_prefixes_config : Config :=
  {| Interfaces :=
       Some [Some (mkInterfaceConfig "net0" 100 0 false false 0 0 0
                     (Some [Some (mkPrefixConfig "2001:db8::/64" true true
                                    (Some 2592000) (Some 604800));
                            Some (mkPrefixConfig "2001:db8::/64" true true
                                    (Some 2592000) (Some 604800))]))] |}.

Definition nested_prefixes_config : Config :=
  {| Interfaces :=
       Some [Some (mkInterfaceConfig "net0" 100 0 false false 0 0 0
                     (Some [Some (mkPrefixConfig "2001:db8::/32" true true None None);
                            Some (mkPrefixConfig "2001:db8:1::/64" true true None None)]))] |}.

Definition zero_interval_config : Config :=
  {| Interfaces :=
       Some [Some (mkInterfaceConfig "net0" 0 0 false false 0 0 0 None)] |}.

Definition short_interval_config : Config :=
  {| Interfaces :=
       Some [Some (mkInterfaceConfig "net0" 69 0 false false 0 0 0 None)] |}.

Definition inverted_lifetimes_config : Config :=
  {| Interfaces :=
       Some [Some (mkInterfaceConfig "net0" 100 0 false false 0 0 0
                     (Some [Some (mkPrefixConfig "2001:db8::/64" true true
                                    (Some 100) (Some 101))]))] |}.

Definition equal_lifetimes_config : Config :=
  {| Interfaces :=
       Some [Some (mkInterfaceConfig "net0" 100 0 false false 0 0 0
                     (Some [Some (mkPrefixConfig "2001:db8::/64" true true
                                    (Some 0) (Some 0))]))] |}.

Definition minimal_config : Config :=
  {| Interfaces :=
       Some [Some (mkInterfaceConfig "net0" 0 0 false false 0 0 0
                     (Some [Some (mkPrefixConfig "2001:db8::/64" false false
                                    None None)]))] |}.

(** A configuration that breaks the invariants of the data model at once:
    a name used twice, intervals out of range, prefixes that overlap. *)
Definition invalid_config : Config :=
  {| Interfaces :=
       Some [Some (mkInterfaceConfig "net0" 5 0 false false 0 0 0
                     (Some [Some (mkPrefixConfig "2001:db8::/32" true true
                                    (Some 10) (Some 20));
                            Some (mkPrefixConfig "2001:db8:1::/64" true true
                                    None None)]));
             Some (mkInterfaceConfig "net0" 1800001 0 false false 0 0 0 None)] |}.

(** A reader that stands for the outcome of decoding it, and a file system
    with one file. *)
Definition outcome_Decode : Config + string -> Config + string := fun r => r.

Definition one_file_Open (path : string) : (Config + string) + string :=
  if bool_decide (path = "ra.yaml") then inl (inl invalid_config)
  else inr "open: no such file or directory".

Definition net0 : InterfaceConfig :=
  mkInterfaceConfig "net0" 100 0 false false 0 0 0 None.

Definition net1 (ms : Z) : InterfaceConfig :=
  mkInterfaceConfig "net1" ms 0 false false 0 0 0 None.

(** The configuration of [TestDaemonHappyPath], [ms] being the interval of
    [net1]. *)
Definition happy_config (ms : Z) : Config :=
  {| Interfaces := Some [Some net0; Some (net1 ms)] |}.

Definition always_open : string -> bool := fun _ => true.

Definition happy_daemon : Daemon :=
  {| newSock := always_open; config := defaults.Set_Config (happy_config 100);
     now := 0; running := false; live := ∅; closedSocks := [] |}.

Definition happy_run : list event := replicate 350 Tick.

Definition happy_net0_350 : Announcer :=
  mkAnnouncer 100 400 (mkSocket "net0" false [300; 200; 100]).

Definition happy_net1_350 : Announcer :=
  mkAnnouncer 100 400 (mkSocket "net1" false [300; 200; 100]).

Definition happy_reloaded : Daemon :=
  fst (Reload (Run happy_daemon happy_run) (happy_config 200)).

Definition happy_run2 : list event := happy_run ++ [DoReload (happy_config 200)].

Definition net0_only : Config := {| Interfaces := Some [Some net0] |}.

Definition happy_removed : Daemon :=
  fst (Reload (Run happy_daemon happy_run2) net0_only).

Definition happy_net1_reloaded : Announcer :=
  mkAnnouncer 200 550 (mkSocket "net1" false [300; 200; 100]).

Definition bad_header_interface : InterfaceConfig :=
  mkInterfaceConfig "net1" 100 256 false false (-1) 0 0 None.

Definition bad_header_config : Config :=
  {| Interfaces := Some [Some net0; Some bad_header_interface] |}.

Definition ipv4_prefix : PrefixConfig :=
  mkPrefixConfig "10.0.0.0/8" true true None None.

Definition ipv4_prefix_interface : InterfaceConfig :=
  mkInterfaceConfig "net0" 100 0 false false 0 0 0 (Some [Some ipv4_prefix]).

Definition ipv4_prefix_config : Config :=
  {| Interfaces := Some [Some ipv4_prefix_interface] |}.

Definition nested_prefixes_interface : InterfaceConfig :=
  mkInterfaceConfig "net0" 100 0 false false 0 0 0
    (Some [Some (mkPrefixConfig "2001:db8::/32" true true None None);
           Some (mkPrefixConfig "2001:db8:1::/64" true true None None)]).

(** * Properties of the configuration code *)

(** ** The library functions on sample texts *)

Example ParsePrefix_samples :
  netip.ParsePrefix "2001:db8::/64" = Some p64 /\
  netip.ParsePrefix "2001:db8::" = None /\
  netip.ParsePrefix "2001:db8::/129" = None /\
  netip.ParsePrefix "2001:db8::/-1" = None /\
  netip.ParsePrefix "2001:db8:::/64" = None /\
  netip.ParsePrefix "1:2:3:4:5:6:7:8:9/64" = None /\
  netip.ParsePrefix "fe80::1%eth0/64" = None /\
  netip.ParsePrefix "::/0"
  = Some (netip.mkPrefix (netip.mkAddr 0 netip.z6noz) 1) /\
  netip.ParsePrefix "10.0.0.0/8"
  = Some (netip.mkPrefix (netip.mkAddr 0xffff0a000000 netip.z4) 9).
Proof. vm_compute. repeat split. Qed.

Example Overlaps_samples :
  overlap_of_texts "2001:db8::/32" "2001:db8:1::/64" = Some true /\
  overlap_of_texts "2001:db8:1::/64" "2001:db8::/32" = Some true /\
  overlap_of_texts "2001:db8::1/32" "2001:db8::2/32" = Some true /\
  overlap_of_texts "2001:db8:1::/64" "2001:db8:2::/64" = Some false /\
  overlap_of_texts "::/0" "10.0.0.0/8" = Some false /\
  overlap_of_texts "2001:db8::/64" "2001:db8::/64" = Some true.
Proof. vm_compute. repeat split. Qed.

Example isCIDRv6_samples :
  isCIDRv6 "2001:db8::/64" = true /\
  isCIDRv6 "2001:db8::1/32" = true /\
  isCIDRv6 "10.0.0.0/8" = false /\
  isCIDRv6 "::ffff:10.0.0.0/104" = false /\
  isCIDRv6 "2001:db8::" = false /\
  isCIDRv6 "" = false.
Proof. vm_compute. repeat split. Qed.

(** ** Lemmas on the validator *)

Section ValidatorFacts.

Context {A : Type}.

Lemma traverseField_nil ns name (tags : list (string * (A -> bool))) v :
  traverseField ns name tags v = [] <-> run_tags tags v = None.
Proof.
  unfold traverseField. destruct (run_tags tags v); split; congruence.
Qed.

Lemma traverseField_ptr_nil ns name (tags : list (string * (A -> bool))) p :
  tags <> [] ->
  traverseField_ptr ns name tags p = [] <->
  exists v, p = Some v /\ run_tags tags v = None.
Proof.
  intros Htags. destruct p as [v|]; simpl.
  - rewrite traverseField_nil. split.
    + intros H. exists v. auto.
    + intros (w & Hw & H). congruence.
  - destruct tags as [|[t fn] rest]; [congruence|].
    split; [discriminate|]. intros (w & Hw & _). discriminate.
Qed.

Lemma concat_imap_nil {B C : Type} (f : nat -> B -> list C) (l : list B) :
  concat (imap f l) = [] <-> forall i x, l !! i = Some x -> f i x = [].
Proof.
  revert f. induction l as [|b l IH]; intros f; simpl.
  - split; [intros _ i x Hi; discriminate | reflexivity].
  - split.
    + intros H. apply app_eq_nil in H as [Hb Hl].
      intros [|i] x Hi; simpl in Hi.
      * congruence.
      * rewrite IH in Hl. apply (Hl i x Hi).
    + intros H. rewrite (H 0%nat b eq_refl). simpl.
      apply IH. intros i x Hi. apply (H (S i) x Hi).
Qed.

Lemma traverseField_dive_nil ns name
    (tags : list (string * (slice (option A) -> bool))) vs s :
  traverseField_dive ns name tags vs s = [] <->
  run_tags tags s = None /\
  forall i e, slice_elems s !! i = Some e ->
    exists x, e = Some x /\ vs (ns +:+ elem_name name i +:+ ".") x = [].
Proof.
  unfold traverseField_dive. destruct (run_tags tags s) as [t|].
  - split; [discriminate | intros [H _]; discriminate].
  - rewrite concat_imap_nil. split.
    + intros H. split; [reflexivity|]. intros i [x|] Hi.
      * exists x. split; [reflexivity|]. apply (H i _ Hi).
      * specialize (H i _ Hi). discriminate.
    + intros [_ H] i e Hi. destruct (H i e Hi) as (x & -> & Hx). exact Hx.
Qed.

End ValidatorFacts.

(** What an accepted configuration looks like, level by level. *)

Lemma validation_error_None c :
  validation_error c = None <-> validate_Struct (defaults.Set_Config c) = [].
Proof.
  unfold validation_error, defaultAndValidate. simpl.
  destruct (validate_Struct (defaults.Set_Config c)); split; congruence.
Qed.

Lemma validate_Struct_nil c :
  validate_Struct c = [] <->
  (exists l, Interfaces c = Some l) /\
  non_nil_and_unique_name (Interfaces c) = true /\
  forall k e, slice_elems (Interfaces c) !! k = Some e ->
    exists iface, e = Some iface /\
      validate_InterfaceConfig
        ("Config." +:+ elem_name "Interfaces" k +:+ ".") iface = [].
Proof.
  unfold validate_Struct. rewrite traverseField_dive_nil.
  unfold Interfaces_tags. simpl.
  destruct (Interfaces c) as [l|]; simpl.
  - destruct (non_nil_and_unique_name (Some l)); split.
    + intros [_ H]. eauto.
    + intros (_ & _ & H). auto.
    + intros [H _]. discriminate.
    + intros (_ & H & _). discriminate.
  - split.
    + intros [H _]. discriminate.
    + intros ([l Hl] & _). discriminate.
Qed.

Lemma validate_InterfaceConfig_nil ns i :
  validate_InterfaceConfig ns i = [] <->
  run_tags Name_tags (Name i) = None /\
  run_tags RAIntervalMilliseconds_tags (RAIntervalMilliseconds i) = None /\
  run_tags CurrentHopLimit_tags (CurrentHopLimit i) = None /\
  run_tags RouterLifetimeSeconds_tags (RouterLifetimeSeconds i) = None /\
  run_tags ReachableTimeMilliseconds_tags (ReachableTimeMilliseconds i) = None /\
  run_tags RetransmitTimeMilliseconds_tags (RetransmitTimeMilliseconds i) = None /\
  non_nil_and_non_overlapping_prefix (Prefixes i) = true /\
  forall k e, slice_elems (Prefixes i) !! k = Some e ->
    exists p, e = Some p /\
      validate_PrefixConfig (ns +:+ elem_name "Prefixes" k +:+ ".") p = [].
Proof.
  unfold validate_InterfaceConfig.
  rewrite !app_nil, !traverseField_nil, traverseField_dive_nil.
  unfold Prefixes_tags. simpl run_tags at 7.
  destruct (non_nil_and_non_overlapping_prefix (Prefixes i)); intuition congruence.
Qed.

Lemma validate_PrefixConfig_nil ns p :
  validate_PrefixConfig ns p = [] <->
  run_tags Prefix_tags (Prefix p) = None /\
  (exists v, ValidLifetimeSeconds p = Some v /\
             run_tags ValidLifetimeSeconds_tags v = None) /\
  (exists v, PreferredLifetimeSeconds p = Some v /\
             run_tags (PreferredLifetimeSeconds_tags (ValidLifetimeSeconds p)) v
             = None).
Proof.
  unfold validate_PrefixConfig.
  rewrite !app_nil, traverseField_nil, !traverseField_ptr_nil by discriminate.
  reflexivity.
Qed.

(** Defaulting keeps the shape of the configuration: the same slices, the
    same [nil] elements, the same names and prefix texts. *)

Lemma set_slice_elems {A : Type} (f : A -> A) (s : slice (option A)) :
  slice_elems (defaults.set_slice f s) = map (option_map f) (slice_elems s).
Proof. destruct s; reflexivity. Qed.

Lemma set_slice_lookup {A : Type} (f : A -> A) (s : slice (option A)) k e :
  slice_elems s !! k = Some e ->
  slice_elems (defaults.set_slice f s) !! k = Some (option_map f e).
Proof.
  intros H. rewrite set_slice_elems, list_lookup_fmap, H. reflexivity.
Qed.

Lemma Set_Config_lookup c k iface :
  slice_elems (Interfaces c) !! k = Some (Some iface) ->
  slice_elems (Interfaces (defaults.Set_Config c)) !! k
  = Some (Some (defaults.Set_InterfaceConfig iface)).
Proof. intros H. apply (set_slice_lookup _ _ _ _ H). Qed.

Lemma Set_InterfaceConfig_lookup iface k p :
  slice_elems (Prefixes iface) !! k = Some (Some p) ->
  slice_elems (Prefixes (defaults.Set_InterfaceConfig iface)) !! k
  = Some (Some (defaults.Set_PrefixConfig p)).
Proof. intros H. apply (set_slice_lookup _ _ _ _ H). Qed.

(** ** The name loop *)

Lemma unique_name_loop_nil names l :
  None ∈ l -> non_nil_and_unique_name_loop names l = false.
Proof.
  revert names. induction l as [|[iface|] l IH]; intros names Hin; simpl.
  - apply elem_of_nil in Hin. contradiction.
  - case_bool_decide; [reflexivity|].
    apply IH. apply elem_of_cons in Hin as [Hin|Hin]; [discriminate | assumption].
  - reflexivity.
Qed.

Lemma unique_name_loop_seen names l iface :
  Some iface ∈ l -> Name iface ∈ names ->
  non_nil_and_unique_name_loop names l = false.
Proof.
  revert names. induction l as [|[i0|] l IH]; intros names Hin Hseen; simpl.
  - apply elem_of_nil in Hin. contradiction.
  - case_bool_decide as Hd; [reflexivity|].
    apply IH.
    + apply elem_of_cons in Hin as [Hin|Hin]; [|assumption].
      injection Hin as ->. contradiction.
    + apply elem_of_union. right. exact Hseen.
  - reflexivity.
Qed.

Lemma unique_name_loop_dup names l j k a b :
  j <> k -> l !! j = Some (Some a) -> l !! k = Some (Some b) ->
  Name a = Name b ->
  non_nil_and_unique_name_loop names l = false.
Proof.
  assert (Hlt : forall names l j k a b,
             (j < k)%nat -> l !! j = Some (Some a) -> l !! k = Some (Some b) ->
             Name a = Name b ->
             non_nil_and_unique_name_loop names l = false).
  { clear. intros names l. revert names.
    induction l as [|e l IH]; intros names j k a b Hjk Hj Hk Hab.
    - discriminate.
    - destruct j as [|j]; simpl in Hj.
      + inversion Hj; subst e. simpl.
        case_bool_decide; [reflexivity|].
        destruct k as [|k]; [lia|]. simpl in Hk.
        apply (unique_name_loop_seen _ _ b).
        * apply list_elem_of_lookup. eauto.
        * rewrite <- Hab.
          apply elem_of_union. left. apply elem_of_singleton. reflexivity.
      + destruct k as [|k]; [lia|]. simpl in Hk.
        destruct e as [i0|]; simpl; [|reflexivity].
        case_bool_decide; [reflexivity|].
        apply (IH _ j k a b); [lia | assumption..]. }
  intros Hne Hj Hk Hab.
  destruct (Nat.lt_total j k) as [H|[H|H]]; [eauto | contradiction |].
  apply (Hlt names l k j b a); auto.
Qed.

(** The loop accepts exactly the slices without [nil] element whose names
    are pairwise different and not yet in [names]. *)
Lemma unique_name_loop_true names l :
  non_nil_and_unique_name_loop names l = true <->
  exists ifs, l = Some <$> ifs /\ NoDup (Name <$> ifs) /\
              forall i, i ∈ ifs -> Name i ∉ names.
Proof.
  revert names. induction l as [|[i0|] l IH]; intros names; simpl.
  - split; [|reflexivity]. intros _. exists []. split; [reflexivity|].
    split; [constructor|]. intros i Hi. apply elem_of_nil in Hi. contradiction.
  - case_bool_decide as Hd.
    + split; [discriminate|].
      intros (ifs & Hl & _ & Hfresh). destruct ifs as [|i1 ifs]; [discriminate|].
      inversion Hl; subst. exfalso.
      apply (Hfresh i1); [apply elem_of_cons; left; reflexivity | assumption].
    + rewrite IH. split.
      * intros (ifs & -> & Hnd & Hfresh). exists (i0 :: ifs).
        split; [reflexivity|]. split.
        -- simpl. constructor; [|assumption].
           intros Hin. apply list_elem_of_fmap in Hin as (i1 & Hn & Hi1).
           apply (Hfresh i1 Hi1). rewrite <- Hn.
           apply elem_of_union. left. apply elem_of_singleton. reflexivity.
        -- intros i Hi. apply elem_of_cons in Hi as [->|Hi]; [assumption|].
           intros Hin. apply (Hfresh i); [assumption|].
           apply elem_of_union. right. exact Hin.
      * intros (ifs & Hl & Hnd & Hfresh).
        destruct ifs as [|i1 ifs]; [discriminate|]. inversion Hl; subst.
        exists ifs. split; [reflexivity|]. simpl in Hnd.
        apply NoDup_cons in Hnd as [Hnotin Hnd]. split; [assumption|].
        intros i Hi Hin. apply elem_of_union in Hin as [Hin|Hin].
        -- apply elem_of_singleton in Hin. apply Hnotin.
           rewrite <- Hin. apply list_elem_of_fmap. eauto.
        -- apply (Hfresh i); [apply elem_of_cons; right; assumption | assumption].
  - split; [discriminate|].
    intros (ifs & Hl & _). destruct ifs; discriminate.
Qed.

(** ** The prefix loops *)

Lemma collect_prefixes_acc acc ps r p :
  collect_prefixes acc ps = Some r -> p ∈ acc -> p ∈ r.
Proof.
  revert acc. induction ps as [|[e|] ps IH]; intros acc Hr Hp; simpl in Hr.
  - congruence.
  - destruct (netip.ParsePrefix (Prefix e)) as [q|]; [|eauto].
    apply (IH _ Hr). apply elem_of_app. left. assumption.
  - discriminate.
Qed.

Lemma collect_prefixes_parsed acc ps r k e p :
  collect_prefixes acc ps = Some r ->
  ps !! k = Some (Some e) -> netip.ParsePrefix (Prefix e) = Some p -> p ∈ r.
Proof.
  revert acc k. induction ps as [|[e0|] ps IH]; intros acc k Hr Hk Hp; simpl in Hr.
  - discriminate.
  - destruct k as [|k]; simpl in Hk.
    + injection Hk as ->. rewrite Hp in Hr.
      apply (collect_prefixes_acc _ _ _ _ Hr). apply elem_of_app. right.
      apply elem_of_cons. left. reflexivity.
    + destruct (netip.ParsePrefix (Prefix e0)); eauto.
  - discriminate.
Qed.

Lemma no_overlap_true prefixes p0 p1 :
  no_overlap prefixes = true -> p0 ∈ prefixes -> p1 ∈ prefixes ->
  p0 <> p1 -> netip.Overlaps p0 p1 = false.
Proof.
  unfold no_overlap. intros H H0 H1 Hne.
  rewrite forallb_forall in H. specialize (H p0).
  rewrite <- list_elem_of_In in H. specialize (H H0).
  rewrite forallb_forall in H. specialize (H p1).
  rewrite <- list_elem_of_In in H. specialize (H H1).
  rewrite bool_decide_eq_true_2 in H by assumption.
  simpl in H. destruct (netip.Overlaps p0 p1); [discriminate | reflexivity].
Qed.

(** Two entries of one slice whose texts parse to different prefixes that
    overlap make the validation fail. *)
Lemma overlapping_prefix_false fl j k a b p0 p1 :
  slice_elems fl !! j = Some (Some a) -> slice_elems fl !! k = Some (Some b) ->
  netip.ParsePrefix (Prefix a) = Some p0 ->
  netip.ParsePrefix (Prefix b) = Some p1 ->
  p0 <> p1 -> netip.Overlaps p0 p1 = true ->
  non_nil_and_non_overlapping_prefix fl = false.
Proof.
  intros Hj Hk Ha Hb Hne Hov. unfold non_nil_and_non_overlapping_prefix.
  destruct (collect_prefixes [] (slice_elems fl)) as [r|] eqn:Hr; [|reflexivity].
  destruct (no_overlap r) eqn:Hno; [|reflexivity].
  pose proof (collect_prefixes_parsed _ _ _ _ _ _ Hr Hj Ha) as H0.
  pose proof (collect_prefixes_parsed _ _ _ _ _ _ Hr Hk Hb) as H1.
  rewrite (no_overlap_true _ _ _ Hno H0 H1 Hne) in Hov. discriminate.
Qed.

(** A valid prefix overlaps itself, which is why the pair loop, running
    over all ordered pairs, has to leave some pairs out. *)
Lemma Overlaps_refl p : netip.IsValid p = true -> netip.Overlaps p p = true.
Proof.
  intros H. unfold netip.Overlaps. rewrite H. simpl.
  rewrite bool_decide_eq_true_2; reflexivity.
Qed.

(** The pair loop compares values, so a prefix listed twice is never
    compared with its copy: a list of copies of one prefix passes. *)
Lemma no_overlap_replicate n p : no_overlap (replicate n p) = true.
Proof.
  unfold no_overlap. apply forallb_forall. intros p0 H0.
  apply forallb_forall. intros p1 H1.
  apply list_elem_of_In, elem_of_replicate in H0 as [-> _].
  apply list_elem_of_In, elem_of_replicate in H1 as [-> _].
  rewrite bool_decide_eq_false_2; [reflexivity | auto].
Qed.

(** ** Reaching a field of an accepted configuration *)

Lemma accepted_interface c k iface :
  validation_error c = None ->
  slice_elems (Interfaces c) !! k = Some (Some iface) ->
  validate_InterfaceConfig ("Config." +:+ elem_name "Interfaces" k +:+ ".")
    (defaults.Set_InterfaceConfig iface) = [].
Proof.
  intros Hok Hk. apply validation_error_None, validate_Struct_nil in Hok.
  destruct Hok as (_ & _ & Hall).
  destruct (Hall k _ (Set_Config_lookup _ _ _ Hk)) as (i' & Hi' & Hv).
  injection Hi' as <-. exact Hv.
Qed.

Lemma accepted_prefix c k iface j p :
  validation_error c = None ->
  slice_elems (Interfaces c) !! k = Some (Some iface) ->
  slice_elems (Prefixes iface) !! j = Some (Some p) ->
  exists ns, validate_PrefixConfig ns (defaults.Set_PrefixConfig p) = [].
Proof.
  intros Hok Hk Hj.
  pose proof (accepted_interface _ _ _ Hok Hk) as Hi.
  apply validate_InterfaceConfig_nil in Hi.
  destruct Hi as (_ & _ & _ & _ & _ & _ & _ & Hall).
  destruct (Hall j _ (Set_InterfaceConfig_lookup _ _ _ Hj)) as (p' & Hp' & Hv).
  injection Hp' as <-. eauto.
Qed.

(** ** Interfaces: no nil entry, no name twice *)

(** C7. A configuration whose [Interfaces] slice holds a [nil] element, or
    two entries with the same [Name], is rejected: [defaultAndValidate]
    returns the validation error that names the field [Config.Interfaces]
    and the failed tag [non_nil_and_unique_name]. *)
Theorem nil_or_duplicate_interface_rejected
    (c : Config) (l : list (option InterfaceConfig)) :
  Interfaces c = Some l ->
  (None ∈ l \/
   exists j k a b, j <> k /\ l !! j = Some (Some a) /\ l !! k = Some (Some b) /\
                   Name a = Name b) ->
  validation_error c
  = Some [mkFieldError "Config.Interfaces" "non_nil_and_unique_name"].
Proof.
  intros Hl Hbad.
  assert (Hloop : non_nil_and_unique_name (Interfaces (defaults.Set_Config c))
                  = false).
  { unfold non_nil_and_unique_name. simpl.
    rewrite set_slice_elems, Hl. simpl.
    destruct Hbad as [Hnil | (j & k & a & b & Hjk & Hj & Hk & Hab)].
    - apply unique_name_loop_nil.
      change None with (option_map defaults.Set_InterfaceConfig None).
      apply list_elem_of_fmap_2. exact Hnil.
    - apply (unique_name_loop_dup _ _ j k (defaults.Set_InterfaceConfig a)
               (defaults.Set_InterfaceConfig b)); [exact Hjk | | | exact Hab].
      + change (map ?f ?x) with (f <$> x). rewrite list_lookup_fmap, Hj. reflexivity.
      + change (map ?f ?x) with (f <$> x). rewrite list_lookup_fmap, Hk. reflexivity. }
  unfold validation_error, defaultAndValidate, validate_Struct,
    traverseField_dive, Interfaces_tags.
  cbn [snd run_tags]. rewrite Hloop.
  cbn [defaults.Set_Config Interfaces]. rewrite Hl. reflexivity.
Qed.

Lemma nil_or_duplicate_interface_rejected_witness :
  validation_error nil_interface_config
  = Some [mkFieldError "Config.Interfaces" "non_nil_and_unique_name"] /\
  validation_error duplicate_name_config
  = Some [mkFieldError "Config.Interfaces" "non_nil_and_unique_name"].
Proof.
  split.
  - apply (nil_or_duplicate_interface_rejected nil_interface_config _ eq_refl).
    left. apply elem_of_cons. right. apply elem_of_cons. left. reflexivity.
  - apply (nil_or_duplicate_interface_rejected duplicate_name_config _ eq_refl).
    right. exists 0%nat, 2%nat, (mkInterfaceConfig "net0" 100 0 false false 0 0 0 None),
      (mkInterfaceConfig "net0" 200 0 false false 0 0 0 None).
    split; [lia|]. split; [reflexivity|]. split; reflexivity.
Defined.

(** ** Prefixes of one interface *)

(** C1, at two equal prefixes.  The interface [net0] carries the prefix
    [2001:db8::/64] twice.  Each text parses to the same prefix, that prefix
    overlaps itself, and yet [defaultAndValidate] returns the [nil] error:
    the pair loop leaves out every pair of equal values, not only the pair
    an entry forms with itself. *)
Theorem equal_prefixes_accepted :
  netip.ParsePrefix "2001:db8::/64" = Some p64 /\
  netip.Overlaps p64 p64 = true /\
  validation_error equal_prefixes_config = None.
Proof. vm_compute. auto. Qed.

(** What the loop does reject: entries of one interface that parse to
    different prefixes which overlap. *)
Lemma distinct_overlapping_prefixes_rejected c k iface i j a b p0 p1 :
  slice_elems (Interfaces c) !! k = Some (Some iface) ->
  slice_elems (Prefixes iface) !! i = Some (Some a) ->
  slice_elems (Prefixes iface) !! j = Some (Some b) ->
  netip.ParsePrefix (Prefix a) = Some p0 ->
  netip.ParsePrefix (Prefix b) = Some p1 ->
  p0 <> p1 -> netip.Overlaps p0 p1 = true ->
  validation_error c <> None.
Proof.
  intros Hk Hi Hj Ha Hb Hne Hov Hok.
  pose proof (accepted_interface _ _ _ Hok Hk) as Hv.
  apply validate_InterfaceConfig_nil in Hv.
  destruct Hv as (_ & _ & _ & _ & _ & _ & Hno & _).
  rewrite (overlapping_prefix_false _ i j (defaults.Set_PrefixConfig a)
             (defaults.Set_PrefixConfig b) p0 p1) in Hno; try assumption.
  - discriminate.
  - apply Set_InterfaceConfig_lookup. exact Hi.
  - apply Set_InterfaceConfig_lookup. exact Hj.
Qed.

Example nested_prefixes_rejected :
  validation_error nested_prefixes_config
  = Some [mkFieldError "Config.Interfaces[0].Prefixes"
            "non_nil_and_non_overlapping_prefix"].
Proof. vm_compute. reflexivity. Qed.

(** ** The advertisement interval *)

Lemma RAInterval_tags_None v :
  run_tags RAIntervalMilliseconds_tags v = None <-> 70 <= v <= 1800000.
Proof.
  unfold RAIntervalMilliseconds_tags, hasValue_int, isGte, isLte. simpl.
  destruct (Z.eqb_spec v 0), (Z.leb_spec 70 v), (Z.leb_spec v 1800000);
    simpl; split; intros; try discriminate; try reflexivity; lia.
Qed.

(** C6 fails at the interval 0: it is below 70, and the configuration is
    accepted, the zero having been replaced by the default 600000 before
    the range is checked. *)
Lemma zero_interval_accepted :
  Interfaces zero_interval_config
  = Some [Some (mkInterfaceConfig "net0" 0 0 false false 0 0 0 None)] /\
  0 < 70 /\
  validation_error zero_interval_config = None.
Proof. vm_compute. auto. Qed.

(** ** Prefix lifetimes *)

Lemma ValidLifetime_tags_None v :
  run_tags ValidLifetimeSeconds_tags v = None <-> 0 <= v <= 4294967295.
Proof.
  unfold ValidLifetimeSeconds_tags, hasValue_int, isGte, isLte. simpl.
  destruct (Z.leb_spec 0 v), (Z.leb_spec v 4294967295);
    simpl; split; intros; try discriminate; try reflexivity; lia.
Qed.

Lemma PreferredLifetime_tags_None valid v :
  run_tags (PreferredLifetimeSeconds_tags valid) v = None <->
  0 <= v /\ exists o, valid = Some o /\ v <= o.
Proof.
  unfold PreferredLifetimeSeconds_tags, hasValue_int, isGte, isLteField. simpl.
  destruct (Z.leb_spec 0 v); simpl.
  - destruct valid as [o|].
    + destruct (Z.leb_spec v o); split.
      * intros _. split; [assumption|]. exists o. auto.
      * reflexivity.
      * discriminate.
      * intros (_ & o' & Ho & Hle). injection Ho as <-. lia.
    + split; [discriminate|]. intros (_ & o & Ho & _). discriminate.
  - split; [discriminate|]. intros [Hge _]. lia.
Qed.

Lemma Set_PrefixConfig_valid p :
  ValidLifetimeSeconds (defaults.Set_PrefixConfig p) = Some (effective_valid p).
Proof. unfold effective_valid. simpl. destruct (ValidLifetimeSeconds p); reflexivity. Qed.

Lemma Set_PrefixConfig_preferred p :
  PreferredLifetimeSeconds (defaults.Set_PrefixConfig p)
  = Some (effective_preferred p).
Proof.
  unfold effective_preferred. simpl.
  destruct (PreferredLifetimeSeconds p); reflexivity.
Qed.

Example equal_lifetimes_accepted :
  validation_error equal_lifetimes_config = None.
Proof. vm_compute. reflexivity. Qed.

(** ** Defaults come first *)

Lemma set_int_idem d v : defaults.set_int d (defaults.set_int d v) = defaults.set_int d v.
Proof.
  unfold defaults.set_int.
  destruct (Z.eqb_spec v 0) as [->|Hv].
  - destruct (d =? 0); reflexivity.
  - apply Z.eqb_neq in Hv. rewrite Hv. reflexivity.
Qed.

Lemma set_slice_idem {A : Type} (f : A -> A) (s : slice (option A)) :
  (forall x, f (f x) = f x) ->
  defaults.set_slice f (defaults.set_slice f s) = defaults.set_slice f s.
Proof.
  intros Hf. destruct s as [l|]; [|reflexivity]. simpl. f_equal.
  rewrite map_map. apply map_ext. intros [x|]; simpl; [|reflexivity].
  rewrite Hf. reflexivity.
Qed.

Lemma Set_PrefixConfig_idem p :
  defaults.Set_PrefixConfig (defaults.Set_PrefixConfig p)
  = defaults.Set_PrefixConfig p.
Proof.
  destruct p as [t l a [v|] [w|]]; reflexivity.
Qed.

Lemma Set_InterfaceConfig_idem i :
  defaults.Set_InterfaceConfig (defaults.Set_InterfaceConfig i)
  = defaults.Set_InterfaceConfig i.
Proof.
  unfold defaults.Set_InterfaceConfig. simpl.
  rewrite !set_int_idem, (set_slice_idem _ _ Set_PrefixConfig_idem).
  reflexivity.
Qed.

Lemma Set_Config_idem c :
  defaults.Set_Config (defaults.Set_Config c) = defaults.Set_Config c.
Proof.
  unfold defaults.Set_Config. simpl.
  rewrite (set_slice_idem _ _ Set_InterfaceConfig_idem). reflexivity.
Qed.

Example minimal_config_defaulted :
  defaultAndValidate minimal_config
  = ({| Interfaces :=
          Some [Some (mkInterfaceConfig "net0" 600000 0 false false 0 0 0
                        (Some [Some (mkPrefixConfig "2001:db8::/64" false false
                                       (Some 2592000) (Some 604800))]))] |},
     None).
Proof. vm_compute. reflexivity. Qed.

(** The one way an omitted lifetime can still fail: a written valid
    lifetime below the default preferred lifetime. *)
Example default_preferred_above_valid :
  validation_error
    {| Interfaces :=
         Some [Some (mkInterfaceConfig "net0" 100 0 false false 0 0 0
                       (Some [Some (mkPrefixConfig "2001:db8::/64" false false
                                      (Some 3600) None)]))] |}
  = Some [mkFieldError "Config.Interfaces[0].Prefixes[0].PreferredLifetimeSeconds"
            "ltefield"].
Proof. vm_compute. reflexivity. Qed.

(** C9. The parse functions return what the decoder yields and validate
    nothing.  When decoding succeeds with a configuration [c], whatever
    [c] is, [ParseConfigJSON] and [ParseConfigYAML] return [c] and the nil
    error, and so does [ParseConfigYAMLFile] when the file opens; for one,
    [invalid_config], which [defaultAndValidate] rejects, comes back as it
    is.  The error is non-nil exactly when decoding, or opening the file,
    fails, and it is that failure's error. *)
Theorem parse_functions_do_not_validate
    (Reader error : Type) (json_Decode yaml_Decode : Reader -> Config + error)
    (os_Open : string -> Reader + error) :
  (forall r c, json_Decode r = inl c ->
     ParseConfigJSON json_Decode r = (Some c, None)) /\
  (forall r c, yaml_Decode r = inl c ->
     ParseConfigYAML yaml_Decode r = (Some c, None)) /\
  (forall path f c, os_Open path = inl f -> yaml_Decode f = inl c ->
     ParseConfigYAMLFile yaml_Decode os_Open path = (Some c, None)) /\
  (forall r err, snd (ParseConfigJSON json_Decode r) = Some err <->
     json_Decode r = inr err) /\
  (forall r err, snd (ParseConfigYAML yaml_Decode r) = Some err <->
     yaml_Decode r = inr err) /\
  (forall path err,
     snd (ParseConfigYAMLFile yaml_Decode os_Open path) = Some err <->
     os_Open path = inr err \/
     exists f, os_Open path = inl f /\ yaml_Decode f = inr err) /\
  validation_error invalid_config <> None /\
  (forall r, json_Decode r = inl invalid_config ->
     ParseConfigJSON json_Decode r = (Some invalid_config, None)) /\
  (forall r, yaml_Decode r = inl invalid_config ->
     ParseConfigYAML yaml_Decode r = (Some invalid_config, None)).
Proof.
  assert (HJ : forall r c, json_Decode r = inl c ->
                 ParseConfigJSON json_Decode r = (Some c, None)).
  { intros r c H. unfold ParseConfigJSON. rewrite H. reflexivity. }
  assert (HY : forall r c, yaml_Decode r = inl c ->
                 ParseConfigYAML yaml_Decode r = (Some c, None)).
  { intros r c H. unfold ParseConfigYAML. rewrite H. reflexivity. }
  split; [exact HJ|]. split; [exact HY|]. split.
  { intros path f c Ho Hd. unfold ParseConfigYAMLFile. rewrite Ho.
    apply HY. exact Hd. }
  split.
  { intros r err. unfold ParseConfigJSON.
    destruct (json_Decode r) as [c|e]; simpl; split; intros H;
      try discriminate; congruence. }
  split.
  { intros r err. unfold ParseConfigYAML.
    destruct (yaml_Decode r) as [c|e]; simpl; split; intros H;
      try discriminate; congruence. }
  split.
  { intros path err. unfold ParseConfigYAMLFile, ParseConfigYAML.
    destruct (os_Open path) as [f|e]; simpl.
    - destruct (yaml_Decode f) as [c|e] eqn:Hd; simpl; split.
      + discriminate.
      + intros [H|(f' & Hf & H)]; [discriminate|].
        injection Hf as <-. congruence.
      + intros H. right. exists f. split; [reflexivity|]. congruence.
      + intros [H|(f' & Hf & H)]; [discriminate|].
        injection Hf as <-. congruence.
    - split.
      + intros H. left. congruence.
      + intros [H|(f & Hf & _)]; [congruence | discriminate]. }
  split; [vm_compute; discriminate|].
  split; intros r H; [apply HJ | apply HY]; exact H.
Qed.

Lemma parse_functions_do_not_validate_witness :
  ParseConfigJSON outcome_Decode (inl invalid_config)
  = (Some invalid_config, None) /\
  ParseConfigYAMLFile outcome_Decode one_file_Open "ra.yaml"
  = (Some invalid_config, None).
Proof.
  pose proof (parse_functions_do_not_validate (Config + string) string
                outcome_Decode outcome_Decode one_file_Open)
    as (HJ & _ & HF & _).
  split.
  - apply HJ. reflexivity.
  - apply (HF "ra.yaml" (inl invalid_config)); reflexivity.
Defined.

(** * Properties of the daemon *)

(** ** Ticks *)

Lemma steps_app d es1 es2 : steps d (es1 ++ es2) = steps (steps d es1) es2.
Proof. apply fold_left_app. Qed.

Lemma replicate_S_snoc {A : Type} (n : nat) (x : A) :
  replicate (S n) x = replicate n x ++ [x].
Proof. induction n as [|n IH]; simpl; [reflexivity|]. f_equal. exact IH. Qed.

Lemma steps_ticks_S d n :
  steps d (replicate (S n) Tick) = tick (steps d (replicate n Tick)).
Proof. rewrite replicate_S_snoc, steps_app. reflexivity. Qed.

Lemma ticks_frame d n :
  let d' := steps d (replicate n Tick) in
  now d' = now d + Z.of_nat n /\ running d' = running d /\
  closedSocks d' = closedSocks d /\ newSock d' = newSock d /\
  config d' = config d.
Proof.
  induction n as [|n IH].
  - simpl. repeat split. lia.
  - rewrite steps_ticks_S. simpl in *.
    destruct IH as (Hn & Hr & Hc & Ho & Hf). repeat split; try assumption. lia.
Qed.

Lemma ticks_live d n name :
  live (steps d (replicate n Tick)) !! name
  = Announcer_ticks (now d) n <$> live d !! name.
Proof.
  induction n as [|n IH].
  - simpl. destruct (live d !! name); reflexivity.
  - rewrite steps_ticks_S. unfold tick at 1. cbn [live].
    rewrite lookup_fmap, IH.
    destruct (ticks_frame d n) as (Hn & _). simpl in Hn. rewrite Hn.
    destruct (live d !! name); simpl; [|reflexivity].
    do 2 f_equal. lia.
Qed.

Lemma sends_at_S t0 I m :
  sends_at t0 I (S m) = (t0 + I * Z.of_nat (S m)) :: sends_at t0 I m.
Proof. reflexivity. Qed.

Lemma sends_at_length t0 I m : length (sends_at t0 I m) = m.
Proof. induction m as [|m IH]; simpl; [reflexivity|]. f_equal. exact IH. Qed.

Lemma sends_at_lookup t0 I m j :
  (j < m)%nat -> sends_at t0 I m !! j = Some (t0 + I * Z.of_nat (m - j)).
Proof.
  revert j. induction m as [|m IH]; intros j Hj; [lia|].
  destruct j as [|j].
  - reflexivity.
  - cbn [sends_at lookup list_lookup]. rewrite IH by lia. do 3 f_equal.
Qed.

(** Consecutive sends of the list are exactly [I] apart. *)
Lemma sends_at_gap t0 I m j t1 t2 :
  sends_at t0 I m !! j = Some t2 -> sends_at t0 I m !! S j = Some t1 ->
  t2 - t1 = I.
Proof.
  intros H2 H1.
  assert (Hj : (S j < m)%nat).
  { apply lookup_lt_Some in H1. rewrite sends_at_length in H1. exact H1. }
  rewrite sends_at_lookup in H2 by lia. rewrite sends_at_lookup in H1 by lia.
  injection H2 as <-. injection H1 as <-. nia.
Qed.

(** The closed form of a running announcer.  At time [t] its timer is due
    at [dl], within one interval; [n] milliseconds later it has sent at
    [dl], [dl + I], ... up to the present, and nothing else. *)
Lemma Announcer_ticks_closed_form t n a :
  0 < interval a -> isClosed (sock a) = false ->
  t < deadline a <= t + interval a ->
  let I := interval a in
  let t0 := deadline a - I in
  let q := (t + Z.of_nat n - t0) / I in
  Announcer_ticks t n a
  = mkAnnouncer I (t0 + I * (q + 1))
      (mkSocket (sock_iface (sock a)) false
         (sends_at t0 I (Z.to_nat q) ++ tx (sock a))).
Proof.
  intros HI Hopen Hdl I t0 q. subst q.
  induction n as [|n IH].
  - cbn [Announcer_ticks]. change (Z.of_nat 0) with 0.
    rewrite (Z.div_small (t + 0 - t0) I) by (subst t0 I; lia).
    destruct a as [Ia dla [ifc cl txs]]. simpl in *. subst I t0 cl.
    f_equal. lia.
  - cbn [Announcer_ticks]. rewrite IH. clear IH.
    set (q := (t + Z.of_nat n - t0) / I).
    assert (Hq : I * q <= t + Z.of_nat n - t0 < I * (q + 1)).
    { pose proof (Z.div_mod (t + Z.of_nat n - t0) I ltac:(lia)) as Hdm.
      pose proof (Z.mod_pos_bound (t + Z.of_nat n - t0) I HI) as Hmb.
      fold q in Hdm. lia. }
    assert (Hq0 : 0 <= q).
    { apply Z.div_pos; subst t0 I; lia. }
    unfold Announcer_tick. cbn [deadline interval sock].
    destruct (Z.leb_spec (t0 + I * (q + 1)) (t + Z.of_nat (S n))) as [Hfire|Hwait].
    + assert (Hnext : (t + Z.of_nat (S n) - t0) / I = q + 1).
      { symmetry. apply (Z.div_unique _ _ _ 0); lia. }
      rewrite Hnext. unfold Socket_send. cbn [isClosed sock_iface tx].
      f_equal; [lia|]. f_equal.
      replace (Z.to_nat (q + 1)) with (S (Z.to_nat q)) by lia.
      rewrite sends_at_S, (Nat2Z.inj_succ (Z.to_nat q)), Z2Nat.id by lia.
      cbn [app]. f_equal. lia.
    + assert (Hnext : (t + Z.of_nat (S n) - t0) / I = q).
      { symmetry.
        apply (Z.div_unique _ _ _ (t + Z.of_nat (S n) - t0 - I * q)); lia. }
      rewrite Hnext. reflexivity.
Qed.

(** ** Reconciliation *)

Lemma reconcile_live d c name :
  live (reconcile d c) !! name
  = reconcile_one (newSock d) (now d) (desired c !! name) (live d !! name).
Proof.
  unfold reconcile. cbn [live]. rewrite lookup_merge. unfold diag_None.
  destruct (desired c !! name), (live d !! name); reflexivity.
Qed.

Lemma elem_of_stopped_sockets gone m s :
  s ∈ stopped_sockets gone m <->
  exists name a, m !! name = Some a /\ gone name = true /\
                 s = Socket_close (sock a).
Proof.
  unfold stopped_sockets. rewrite list_elem_of_fmap. split.
  - intros ([name a] & -> & Hin). apply list_elem_of_filter in Hin as [Hg Hin].
    apply elem_of_map_to_list in Hin. exists name, a. auto.
  - intros (name & a & Hm & Hg & ->). exists (name, a). split; [reflexivity|].
    apply list_elem_of_filter. split; [exact Hg|].
    apply elem_of_map_to_list. exact Hm.
Qed.

Lemma elem_of_sockets d s :
  s ∈ sockets d <->
  (exists name a, live d !! name = Some a /\ s = sock a) \/ s ∈ closedSocks d.
Proof.
  unfold sockets. rewrite elem_of_app, list_elem_of_fmap. split.
  - intros [([name a] & -> & Hin)|H]; [left|right; exact H].
    apply elem_of_map_to_list in Hin. exists name, a. auto.
  - intros [(name & a & Hm & ->)|H]; [left|right; exact H].
    exists (name, a). split; [reflexivity|]. apply elem_of_map_to_list. exact Hm.
Qed.

Lemma desired_lookup_Some c name ic :
  desired c !! name = Some ic ->
  Name ic = name /\ Some ic ∈ slice_elems (Interfaces c).
Proof.
  unfold desired. intros H. apply elem_of_list_to_map_2 in H.
  apply list_elem_of_fmap in H as (i & Heq & Hi). injection Heq as -> ->.
  split; [reflexivity|].
  apply list_elem_of_omap in Hi as (x & Hx & Hid). simpl in Hid. subst x. exact Hx.
Qed.

Lemma desired_lookup_None c name :
  (forall iface, Some iface ∈ slice_elems (Interfaces c) -> Name iface <> name) ->
  desired c !! name = None.
Proof.
  intros Habs. destruct (desired c !! name) as [ic|] eqn:H; [|reflexivity].
  apply desired_lookup_Some in H as [Hn Hin]. exfalso. exact (Habs ic Hin Hn).
Qed.

Lemma omap_id_Some {A : Type} (l : list A) : omap id (Some <$> l) = l.
Proof. induction l as [|x l IH]; simpl; [reflexivity|]. f_equal. exact IH. Qed.

Lemma desired_lookup_unique c k iface :
  non_nil_and_unique_name (Interfaces c) = true ->
  slice_elems (Interfaces c) !! k = Some (Some iface) ->
  desired c !! Name iface = Some iface.
Proof.
  unfold non_nil_and_unique_name, desired. intros Hu Hk.
  apply unique_name_loop_true in Hu as (ifs & Hl & Hnd & _).
  rewrite Hl in *. rewrite omap_id_Some.
  apply elem_of_list_to_map_1.
  - rewrite <- list_fmap_compose. exact Hnd.
  - apply list_elem_of_fmap. exists iface. split; [reflexivity|].
    rewrite list_lookup_fmap in Hk.
    destruct (ifs !! k) as [i|] eqn:Hi; [|discriminate].
    injection Hk as ->. apply list_elem_of_lookup. eauto.
Qed.

(** What [New] and [Reload] know of a configuration that passed
    [defaultAndValidate]. *)
Lemma accepted_config c c' :
  defaultAndValidate c = (c', None) ->
  c' = defaults.Set_Config c /\ validate_Struct c' = [] /\
  validation_error c = None.
Proof.
  unfold validation_error, defaultAndValidate. cbn [snd].
  destruct (validate_Struct (defaults.Set_Config c)) eqn:Hv; intros H.
  - injection H as <-. rewrite Hv. auto.
  - discriminate.
Qed.

Lemma desired_valid c name ic :
  validate_Struct c = [] -> desired c !! name = Some ic ->
  Name ic = name /\ 70 <= RAIntervalMilliseconds ic <= 1800000.
Proof.
  intros Hv Hd. apply desired_lookup_Some in Hd as [Hn Hin]. split; [exact Hn|].
  apply validate_Struct_nil in Hv as (_ & _ & Hall).
  apply list_elem_of_lookup in Hin as [k Hk].
  destruct (Hall k _ Hk) as (i & Hi & Hvi). injection Hi as <-.
  apply validate_InterfaceConfig_nil in Hvi as (_ & Hra & _).
  apply RAInterval_tags_None. exact Hra.
Qed.

Lemma desired_accepted c k iface :
  validation_error c = None ->
  slice_elems (Interfaces c) !! k = Some (Some iface) ->
  desired (defaults.Set_Config c) !! Name iface
  = Some (defaults.Set_InterfaceConfig iface).
Proof.
  intros Hok Hk. apply validation_error_None, validate_Struct_nil in Hok.
  destruct Hok as (_ & Hu & _).
  apply (desired_lookup_unique _ k (defaults.Set_InterfaceConfig iface) Hu).
  apply Set_Config_lookup. exact Hk.
Qed.

Lemma desired_absent c name :
  (forall iface, Some iface ∈ slice_elems (Interfaces c) -> Name iface <> name) ->
  desired (defaults.Set_Config c) !! name = None.
Proof.
  intros Habs. apply desired_lookup_None. intros iface Hin.
  cbn [defaults.Set_Config Interfaces] in Hin. rewrite set_slice_elems in Hin.
  change (map ?f ?x) with (f <$> x) in Hin.
  apply list_elem_of_fmap in Hin as ([i|] & Heq & Hi); [|discriminate].
  injection Heq as ->. apply (Habs i Hi).
Qed.

Lemma wf_reconcile d c :
  wf d -> running d = true -> validate_Struct c = [] -> wf (reconcile d c).
Proof.
  intros [Hl Hc Hs] Hrun Hv. constructor.
  - intros name a. rewrite reconcile_live.
    destruct (desired c !! name) as [ic|] eqn:Hd; [|discriminate].
    destruct (desired_valid _ _ _ Hv Hd) as [Hn Hrange].
    cbn [reconcile now]. destruct (live d !! name) as [a0|] eqn:Ha0; simpl.
    + destruct (Hl _ _ Ha0) as (Ho & Hi & Hr & Hdl).
      destruct (Z.eqb_spec (interval a0) (RAIntervalMilliseconds ic)).
      * intros H. injection H as <-. auto.
      * intros H. injection H as <-. simpl. repeat split; try assumption; lia.
    + destruct (newSock d (Name ic)); [|discriminate].
      intros H. injection H as <-. simpl. repeat split; try assumption; lia.
  - intros s. cbn [reconcile closedSocks]. rewrite elem_of_app.
    intros [H|H]; [apply (Hc _ H)|].
    apply elem_of_stopped_sockets in H as (name & a & _ & _ & ->). reflexivity.
  - cbn [reconcile running]. congruence.
Qed.

Lemma wf_tick d : wf d -> wf (tick d).
Proof.
  intros [Hl Hc Hs]. constructor.
  - intros name a. cbn [tick live now]. rewrite lookup_fmap.
    destruct (live d !! name) as [a0|] eqn:Ha0; [|discriminate].
    destruct (Hl _ _ Ha0) as (Ho & Hi & Hr & Hdl).
    simpl. intros H. injection H as <-. unfold Announcer_tick.
    destruct (Z.leb_spec (deadline a0) (now d + 1)); simpl.
    + unfold Socket_send. rewrite Ho. simpl. repeat split; try assumption; lia.
    + repeat split; try assumption; lia.
  - exact Hc.
  - cbn [tick running live]. intros H. rewrite (Hs H). apply fmap_empty.
Qed.

Lemma wf_cancel d : wf d -> wf (cancel d).
Proof.
  intros [Hl Hc Hs]. constructor.
  - intros name a. cbn [cancel live]. rewrite lookup_empty. discriminate.
  - intros s. cbn [cancel closedSocks]. rewrite elem_of_app.
    intros [H|H]; [apply (Hc _ H)|].
    apply elem_of_stopped_sockets in H as (name & a & _ & _ & ->). reflexivity.
  - reflexivity.
Qed.

Lemma wf_Reload d c : wf d -> wf (fst (Reload d c)).
Proof.
  intros Hwf. unfold Reload.
  destruct (running d) eqn:Hrun; cbn [negb fst]; [|exact Hwf].
  destruct (defaultAndValidate c) as [c' [verrs|]] eqn:Hdv; cbn [fst];
    [exact Hwf|].
  apply accepted_config in Hdv as (_ & Hv & _).
  apply wf_reconcile; assumption.
Qed.

Lemma wf_step d e : wf d -> wf (step d e).
Proof.
  intros Hwf. destruct e; simpl.
  - apply wf_tick. exact Hwf.
  - apply wf_Reload. exact Hwf.
  - destruct (running d); [apply wf_cancel|]; exact Hwf.
Qed.

Lemma wf_steps d es : wf d -> wf (steps d es).
Proof.
  revert d. induction es as [|e es IH]; intros d Hwf; simpl; [exact Hwf|].
  apply IH, wf_step, Hwf.
Qed.

Lemma New_inl c open d :
  New c open = inl d ->
  validation_error c = None /\
  d = {| newSock := open; config := defaults.Set_Config c; now := 0;
         running := false; live := ∅; closedSocks := [] |}.
Proof.
  unfold New. destruct (defaultAndValidate c) as [c' [verrs|]] eqn:Hdv;
    [discriminate|].
  apply accepted_config in Hdv as (-> & _ & Hok).
  intros H. injection H as <-. auto.
Qed.

Lemma wf_Run_enter c open d : New c open = inl d -> wf (Run_enter d).
Proof.
  intros HN. apply New_inl in HN as [Hok ->].
  unfold Run_enter. cbn [newSock config now live closedSocks].
  apply wf_reconcile.
  - constructor; cbn.
    + intros name a. rewrite lookup_empty. discriminate.
    + intros s Hs. apply elem_of_nil in Hs. contradiction.
    + discriminate.
  - reflexivity.
  - apply validation_error_None. exact Hok.
Qed.

Lemma wf_Run c open d es : New c open = inl d -> wf (Run d es).
Proof. intros HN. apply wf_steps, (wf_Run_enter _ _ _ HN). Qed.

(** A live announcer of a well-formed daemon, [n] milliseconds on: it has
    sent at its deadline and then every interval, and nothing else. *)
Lemma live_ticks_closed_form d name a n :
  wf d -> live d !! name = Some a ->
  let I := interval a in
  let t0 := deadline a - I in
  let q := (now d + Z.of_nat n - t0) / I in
  live (steps d (replicate n Tick)) !! name
  = Some (mkAnnouncer I (t0 + I * (q + 1))
            (mkSocket name false (sends_at t0 I (Z.to_nat q) ++ tx (sock a)))).
Proof.
  intros Hwf Ha I t0 q.
  destruct (wf_live _ Hwf _ _ Ha) as (Hopen & Hif & Hr & Hdl).
  rewrite ticks_live, Ha. cbn [fmap option_fmap option_map].
  rewrite (Announcer_ticks_closed_form (now d) n a); [|lia|exact Hopen|exact Hdl].
  rewrite Hif. reflexivity.
Qed.

Lemma Reload_ok d c d' :
  Reload d c = (d', None) ->
  running d = true /\ validation_error c = None /\
  validate_Struct (defaults.Set_Config c) = [] /\
  d' = reconcile d (defaults.Set_Config c) /\
  failed_interfaces d (defaults.Set_Config c) = [].
Proof.
  unfold Reload. destruct (running d); cbn [negb]; [|discriminate].
  destruct (defaultAndValidate c) as [c' [verrs|]] eqn:Hdv; [discriminate|].
  apply accepted_config in Hdv as (-> & Hv & Hok).
  destruct (failed_interfaces d (defaults.Set_Config c)); [|discriminate].
  intros H. injection H as <-. auto.
Qed.

Lemma Run_enter_live c open d name :
  New c open = inl d ->
  live (Run_enter d) !! name
  = reconcile_one open 0 (desired (defaults.Set_Config c) !! name) None
  /\ now (Run_enter d) = 0 /\ running (Run_enter d) = true.
Proof.
  intros HN. apply New_inl in HN as [_ ->]. unfold Run_enter.
  rewrite reconcile_live. cbn. rewrite lookup_empty. auto.
Qed.

(** ** Cadence of one announcer *)

(** C5. For a configuration accepted by [New], with an interface whose
    socket can be opened and whose interval (after defaulting) is [I]:
    [n] milliseconds into [Run] the announcer of the interface is live with
    interval [I], and its socket has taken [n / I] advertisements, at the
    times [I], [2 I], ..., so that any two consecutive sends are exactly [I]
    apart, inside the 5 ms margin, however many there are. *)
Theorem announcer_sends_at_interval
    (c : Config) (open : string -> bool) (d : Daemon) (k : nat)
    (iface : InterfaceConfig) (n : nat) :
  New c open = inl d ->
  slice_elems (Interfaces c) !! k = Some (Some iface) ->
  open (Name iface) = true ->
  let I := RAIntervalMilliseconds (defaults.Set_InterfaceConfig iface) in
  exists a,
    live (Run d (replicate n Tick)) !! Name iface = Some a /\
    interval a = I /\ 70 <= I <= 1800000 /\
    sock a = mkSocket (Name iface) false
               (sends_at 0 I (Z.to_nat (Z.of_nat n / I))) /\
    length (tx (sock a)) = Z.to_nat (Z.of_nat n / I) /\
    forall j t1 t2,
      tx (sock a) !! j = Some t2 -> tx (sock a) !! S j = Some t1 ->
      t2 - t1 = I /\ Z.abs (t2 - t1 - I) <= 5.
Proof.
  intros HN Hk Hopen I.
  destruct (Run_enter_live _ _ _ (Name iface) HN) as (Hlive & Hnow & _).
  pose proof (New_inl _ _ _ HN) as [Hok _].
  rewrite (desired_accepted _ _ _ Hok Hk) in Hlive.
  cbn [reconcile_one defaults.Set_InterfaceConfig Name] in Hlive.
  rewrite Hopen in Hlive.
  assert (Hrange : 70 <= I <= 1800000).
  { pose proof (wf_Run_enter _ _ _ HN) as [Hl _ _].
    destruct (Hl _ _ Hlive) as (_ & _ & Hr & _). exact Hr. }
  set (a0 := Announcer_start 0 (defaults.Set_InterfaceConfig iface)) in *.
  exists (Announcer_ticks 0 n a0).
  assert (Hcf : Announcer_ticks 0 n a0
                = mkAnnouncer I (0 + I * (Z.of_nat n / I + 1))
                    (mkSocket (Name iface) false
                       (sends_at 0 I (Z.to_nat (Z.of_nat n / I))))).
  { rewrite (Announcer_ticks_closed_form 0 n a0).
    - change (interval a0) with I. change (deadline a0) with (0 + I).
      change (sock_iface (sock a0)) with (Name iface).
      change (tx (sock a0)) with (@nil Z).
      replace (0 + I - I) with 0 by lia.
      replace (0 + Z.of_nat n - 0) with (Z.of_nat n) by lia.
      rewrite app_nil_r. reflexivity.
    - change (0 < I). lia.
    - reflexivity.
    - change (0 < 0 + I <= 0 + I). lia. }
  split.
  { unfold Run. rewrite ticks_live, Hnow, Hlive. reflexivity. }
  rewrite Hcf. cbn [interval sock tx].
  split; [reflexivity|]. split; [exact Hrange|]. split; [reflexivity|].
  split; [apply sends_at_length|].
  intros j t1 t2 H2 H1. pose proof (sends_at_gap _ _ _ _ _ _ H2 H1) as Hgap.
  split; [exact Hgap | lia].
Qed.

Lemma happy_daemon_New : New (happy_config 100) always_open = inl happy_daemon.
Proof. vm_compute. reflexivity. Qed.

Lemma announcer_sends_at_interval_witness :
  exists a,
    live (Run happy_daemon (replicate 350 Tick)) !! "net1" = Some a /\
    interval a = 100 /\ 70 <= 100 <= 1800000 /\
    sock a = mkSocket "net1" false [300; 200; 100] /\
    length (tx (sock a)) = 3%nat /\
    forall j t1 t2,
      tx (sock a) !! j = Some t2 -> tx (sock a) !! S j = Some t1 ->
      t2 - t1 = 100 /\ Z.abs (t2 - t1 - 100) <= 5.
Proof.
  exact (announcer_sends_at_interval (happy_config 100) always_open happy_daemon
           1 (net1 100) 350 happy_daemon_New eq_refl eq_refl).
Defined.

(** ** Reload *)

Lemma reconcile_frame d c :
  now (reconcile d c) = now d /\ running (reconcile d c) = running d /\
  newSock (reconcile d c) = newSock d.
Proof. repeat split. Qed.

Lemma ticks_live_agree d d' n name :
  now d' = now d -> live d' !! name = live d !! name ->
  live (steps d' (replicate n Tick)) !! name
  = live (steps d (replicate n Tick)) !! name.
Proof. intros Hn Hl. rewrite !ticks_live, Hn, Hl. reflexivity. Qed.

(** C4. In a running daemon, after a [Reload] that returned without error:
    an interface [A] whose interval the new configuration keeps has its
    announcer untouched (interval, timer, socket and the socket's record of
    sends), goes on exactly as it would have without the reload, and none
    of the sockets the reload closed is on [A]; an interface [B] whose
    interval changes to [IB] keeps its socket, and from the reload at time
    [t] on its sends fall at [t + IB], [t + 2 IB], ..., each [IB] after the
    one before. *)
Theorem reload_changes_one_interval
    (c0 : Config) (open : string -> bool) (d0 : Daemon) (es : list event)
    (c' : Config) (d' : Daemon) (A B : string) (aA aB : Announcer)
    (kA kB : nat) (icA icB : InterfaceConfig) :
  New c0 open = inl d0 ->
  let d := Run d0 es in
  Reload d c' = (d', None) ->
  live d !! A = Some aA -> live d !! B = Some aB ->
  slice_elems (Interfaces c') !! kA = Some (Some icA) -> Name icA = A ->
  slice_elems (Interfaces c') !! kB = Some (Some icB) -> Name icB = B ->
  let IA := RAIntervalMilliseconds (defaults.Set_InterfaceConfig icA) in
  let IB := RAIntervalMilliseconds (defaults.Set_InterfaceConfig icB) in
  IA = interval aA -> IB <> interval aB ->
  (live d' !! A = Some aA /\
   (forall n, live (steps d' (replicate n Tick)) !! A
              = live (steps d (replicate n Tick)) !! A) /\
   (forall s, s ∈ closedSocks d' -> s ∈ closedSocks d \/ sock_iface s <> A)) /\
  (live d' !! B = Some (mkAnnouncer IB (now d + IB) (sock aB)) /\
   forall n, exists b,
     live (steps d' (replicate n Tick)) !! B = Some b /\
     interval b = IB /\
     sock b = mkSocket B false
                (sends_at (now d) IB (Z.to_nat (Z.of_nat n / IB))
                 ++ tx (sock aB)) /\
     forall j t1 t2,
       (S j < Z.to_nat (Z.of_nat n / IB))%nat ->
       tx (sock b) !! j = Some t2 -> tx (sock b) !! S j = Some t1 ->
       t2 - t1 = IB).
Proof.
  intros HN d HR HA HB HkA HnA HkB HnB IA IB HIA HIB.
  pose proof (wf_Run _ _ _ es HN) as Hwf. fold d in Hwf.
  apply Reload_ok in HR as (Hrun & Hok & Hv & -> & _).
  pose proof (desired_accepted _ _ _ Hok HkA) as HdA. rewrite HnA in HdA.
  pose proof (desired_accepted _ _ _ Hok HkB) as HdB. rewrite HnB in HdB.
  assert (HA' : live (reconcile d (defaults.Set_Config c')) !! A = Some aA).
  { rewrite reconcile_live, HdA, HA. cbn [reconcile_one]. fold IA.
    rewrite HIA, Z.eqb_refl. reflexivity. }
  assert (HB' : live (reconcile d (defaults.Set_Config c')) !! B
                = Some (mkAnnouncer IB (now d + IB) (sock aB))).
  { rewrite reconcile_live, HdB, HB. cbn [reconcile_one]. fold IB.
    destruct (Z.eqb_spec (interval aB) IB); [congruence | reflexivity]. }
  split; [split; [exact HA'|split]|split; [exact HB'|]].
  - intros n. apply ticks_live_agree; [reflexivity|]. rewrite HA', HA. reflexivity.
  - intros s. cbn [reconcile closedSocks]. rewrite elem_of_app.
    intros [H|H]; [left; exact H|right].
    apply elem_of_stopped_sockets in H as (name & a & Hl & Hg & ->).
    apply bool_decide_eq_true in Hg. cbn [Socket_close sock_iface].
    destruct (wf_live _ Hwf _ _ Hl) as (_ & Hi & _). rewrite Hi.
    intros ->. congruence.
  - intros n.
    destruct (wf_live _ Hwf _ _ HB) as (Hopen & Hif & _ & _).
    destruct (desired_valid _ _ _ Hv HdB) as [_ Hrange]. fold IB in Hrange.
    set (b0 := mkAnnouncer IB (now d + IB) (sock aB)).
    assert (Hcf : Announcer_ticks (now d) n b0
                  = mkAnnouncer IB (now d + IB * (Z.of_nat n / IB + 1))
                      (mkSocket B false
                         (sends_at (now d) IB (Z.to_nat (Z.of_nat n / IB))
                          ++ tx (sock aB)))).
    { rewrite (Announcer_ticks_closed_form (now d) n b0).
      - change (interval b0) with IB. change (deadline b0) with (now d + IB).
        change (sock b0) with (sock aB). rewrite Hif.
        replace (now d + IB - IB) with (now d) by lia.
        replace (now d + Z.of_nat n - now d) with (Z.of_nat n) by lia.
        reflexivity.
      - change (0 < IB). lia.
      - exact Hopen.
      - change (now d < now d + IB <= now d + IB). lia. }
    exists (Announcer_ticks (now d) n b0). split.
    { rewrite ticks_live. cbn [reconcile now]. rewrite HB'. reflexivity. }
    rewrite Hcf. cbn [interval sock tx]. split; [reflexivity|].
    split; [reflexivity|].
    intros j t1 t2 Hj H2 H1.
    rewrite lookup_app_l in H2 by (rewrite sends_at_length; lia).
    rewrite lookup_app_l in H1 by (rewrite sends_at_length; lia).
    apply (sends_at_gap _ _ _ _ _ _ H2 H1).
Qed.

Lemma happy_reload_ok :
  Reload (Run happy_daemon happy_run) (happy_config 200) = (happy_reloaded, None).
Proof. vm_compute. reflexivity. Qed.

Lemma reload_changes_one_interval_witness :
  (live happy_reloaded !! "net0" = Some happy_net0_350 /\
   (forall n, live (steps happy_reloaded (replicate n Tick)) !! "net0"
              = live (steps (Run happy_daemon happy_run) (replicate n Tick))
                  !! "net0") /\
   (forall s, s ∈ closedSocks happy_reloaded ->
              s ∈ closedSocks (Run happy_daemon happy_run)
              \/ sock_iface s <> "net0")) /\
  (live happy_reloaded !! "net1"
   = Some (mkAnnouncer 200 (now (Run happy_daemon happy_run) + 200)
             (sock happy_net1_350)) /\
   forall n, exists b,
     live (steps happy_reloaded (replicate n Tick)) !! "net1" = Some b /\
     interval b = 200 /\
     sock b = mkSocket "net1" false
                (sends_at (now (Run happy_daemon happy_run)) 200
                   (Z.to_nat (Z.of_nat n / 200))
                 ++ tx (sock happy_net1_350)) /\
     forall j t1 t2,
       (S j < Z.to_nat (Z.of_nat n / 200))%nat ->
       tx (sock b) !! j = Some t2 -> tx (sock b) !! S j = Some t1 ->
       t2 - t1 = 200).
Proof.
  refine (reload_changes_one_interval (happy_config 100) always_open
            happy_daemon happy_run (happy_config 200) happy_reloaded
            "net0" "net1" happy_net0_350 happy_net1_350 0 1 net0 (net1 200)
            happy_daemon_New happy_reload_ok _ _ eq_refl eq_refl eq_refl eq_refl
            _ _).
  - vm_compute. reflexivity.
  - vm_compute. reflexivity.
  - reflexivity.
  - vm_compute. discriminate.
Defined.

(** The closed sockets are only ever added to. *)
Lemma closedSocks_step d e : closedSocks d `prefix_of` closedSocks (step d e).
Proof.
  destruct e as [|c|]; simpl.
  - reflexivity.
  - unfold Reload. destruct (running d); cbn [negb fst]; [|reflexivity].
    destruct (defaultAndValidate c) as [c' [verrs|]]; cbn [fst]; [reflexivity|].
    cbn [reconcile closedSocks]. apply prefix_app_r. reflexivity.
  - destruct (running d); [|reflexivity].
    cbn [cancel closedSocks]. apply prefix_app_r. reflexivity.
Qed.

Lemma closedSocks_steps d es : closedSocks d `prefix_of` closedSocks (steps d es).
Proof.
  revert d. induction es as [|e es IH]; intros d; simpl; [reflexivity|].
  etrans; [apply (closedSocks_step d e) | apply IH].
Qed.

(** C3. In a running daemon with a live announcer on [X], after a [Reload]
    that returned without error and whose configuration has no interface
    named [X]: [X] has no announcer, now or after any number of
    milliseconds; its socket is among the closed ones, reporting closed,
    with the record of sends it had at the reload, and stays so whatever
    happens later.  An interface [Y] that was live and is in the new
    configuration keeps its socket, open, and has the interval [IY] the
    configuration gives it: from its next send on it sends every [IY]
    milliseconds; when [IY] is the interval it had, its announcer is
    untouched and goes on exactly as it would have without the reload. *)
Theorem reload_removes_interface
    (c0 : Config) (open : string -> bool) (d0 : Daemon) (es : list event)
    (c' : Config) (d' : Daemon) (X : string) (aX : Announcer) :
  New c0 open = inl d0 ->
  let d := Run d0 es in
  Reload d c' = (d', None) ->
  live d !! X = Some aX ->
  (forall iface, Some iface ∈ slice_elems (Interfaces c') -> Name iface <> X) ->
  let closedX := Socket_close (sock aX) in
  (live d' !! X = None /\
   (forall n, live (steps d' (replicate n Tick)) !! X = None) /\
   isClosed closedX = true /\ tx closedX = tx (sock aX) /\
   exists j, closedSocks d' !! j = Some closedX /\
             forall es', closedSocks (steps d' es') !! j = Some closedX) /\
  (forall Y aY k icY,
     live d !! Y = Some aY ->
     slice_elems (Interfaces c') !! k = Some (Some icY) -> Name icY = Y ->
     let IY := RAIntervalMilliseconds (defaults.Set_InterfaceConfig icY) in
     exists aY',
       live d' !! Y = Some aY' /\ sock aY' = sock aY /\
       isClosed (sock aY') = false /\ interval aY' = IY /\
       (forall n,
          let t0 := deadline aY' - IY in
          let q := (now d + Z.of_nat n - t0) / IY in
          exists y,
            live (steps d' (replicate n Tick)) !! Y = Some y /\
            interval y = IY /\
            sock y = mkSocket Y false
                       (sends_at t0 IY (Z.to_nat q) ++ tx (sock aY))) /\
       (interval aY = IY ->
        aY' = aY /\
        forall n, live (steps d' (replicate n Tick)) !! Y
                  = live (steps d (replicate n Tick)) !! Y)).
Proof.
  intros HN d HR HX Habs closedX.
  pose proof (wf_Run _ _ _ es HN) as Hwf. fold d in Hwf.
  apply Reload_ok in HR as (Hrun & Hok & Hv & -> & _).
  pose proof (desired_absent _ _ Habs) as HdX.
  assert (HX' : live (reconcile d (defaults.Set_Config c')) !! X = None).
  { rewrite reconcile_live, HdX. reflexivity. }
  split.
  - split; [exact HX'|]. split.
    { intros n. rewrite ticks_live, HX'. reflexivity. }
    split; [reflexivity|]. split; [reflexivity|].
    assert (Hin : closedX ∈ closedSocks (reconcile d (defaults.Set_Config c'))).
    { cbn [reconcile closedSocks]. apply elem_of_app. right.
      apply elem_of_stopped_sockets. exists X, aX.
      split; [exact HX|]. split; [|reflexivity].
      apply bool_decide_eq_true. exact HdX. }
    apply list_elem_of_lookup in Hin as [j Hj]. exists j.
    split; [exact Hj|]. intros es'.
    apply (prefix_lookup_Some _ _ _ _ Hj), closedSocks_steps.
  - intros Y aY k icY HY Hk Hn IY.
    pose proof (desired_accepted _ _ _ Hok Hk) as HdY. rewrite Hn in HdY.
    destruct (wf_live _ Hwf _ _ HY) as (Hopen & _).
    pose proof (reconcile_live d (defaults.Set_Config c') Y) as HY'.
    rewrite HdY, HY in HY'. cbn [reconcile_one] in HY'. fold IY in HY'.
    assert (Hwf' : wf (reconcile d (defaults.Set_Config c'))).
    { apply wf_reconcile; assumption. }
    assert (Hcf : forall aY',
               live (reconcile d (defaults.Set_Config c')) !! Y = Some aY' ->
               interval aY' = IY -> sock aY' = sock aY ->
               forall n,
                 let t0 := deadline aY' - IY in
                 let q := (now d + Z.of_nat n - t0) / IY in
                 exists y,
                   live (steps (reconcile d (defaults.Set_Config c'))
                           (replicate n Tick)) !! Y = Some y /\
                   interval y = IY /\
                   sock y = mkSocket Y false
                              (sends_at t0 IY (Z.to_nat q) ++ tx (sock aY))).
    { intros aY' Hl Hi Hs n t0 q.
      pose proof (live_ticks_closed_form _ _ _ n Hwf' Hl) as Hc.
      cbn zeta in Hc. rewrite Hi, Hs in Hc. cbn [reconcile now] in Hc.
      eexists. split; [exact Hc|]. split; reflexivity. }
    destruct (Z.eqb_spec (interval aY) IY) as [Heq|Hne].
    + exists aY. split; [exact HY'|]. split; [reflexivity|].
      split; [exact Hopen|]. split; [exact Heq|].
      split; [apply (Hcf aY HY' Heq eq_refl)|]. intros _.
      split; [reflexivity|]. intros n.
      apply ticks_live_agree; [reflexivity|]. rewrite HY', HY. reflexivity.
    + exists (mkAnnouncer IY (now d + IY) (sock aY)).
      split; [exact HY'|]. split; [reflexivity|]. split; [exact Hopen|].
      split; [reflexivity|].
      split; [apply (Hcf _ HY' eq_refl eq_refl)|]. intros Heq. contradiction.
Qed.

Lemma happy_remove_ok :
  Reload (Run happy_daemon happy_run2) net0_only = (happy_removed, None).
Proof. vm_compute. reflexivity. Qed.

Lemma happy_net1_live :
  live (Run happy_daemon happy_run2) !! "net1" = Some happy_net1_reloaded.
Proof. vm_compute. reflexivity. Qed.

Lemma net0_only_no_net1 iface :
  Some iface ∈ slice_elems (Interfaces net0_only) -> Name iface <> "net1".
Proof.
  intros Hin. apply list_elem_of_singleton in Hin. injection Hin as ->.
  discriminate.
Qed.

Lemma reload_removes_interface_witness :
  live happy_removed !! "net1" = None.
Proof.
  exact (proj1 (proj1 (reload_removes_interface (happy_config 100) always_open
                         happy_daemon happy_run2 net0_only happy_removed "net1"
                         happy_net1_reloaded happy_daemon_New happy_remove_ok
                         happy_net1_live net0_only_no_net1))).
Defined.

(** ** Cancellation *)

Lemma later_refl s : later s s.
Proof. split; [reflexivity|]. split; [reflexivity | auto]. Qed.

Lemma later_trans s1 s2 s3 : later s1 s2 -> later s2 s3 -> later s1 s3.
Proof.
  intros (Hi1 & Ht1 & Hc1) (Hi2 & Ht2 & Hc2). split; [congruence|]. split.
  - etrans; eassumption.
  - intros Hc. specialize (Hc1 Hc). subst s2. apply (Hc2 Hc).
Qed.

Lemma later_close s : later s (Socket_close s).
Proof.
  split; [reflexivity|]. split; [reflexivity|].
  destruct s as [i c t]. simpl. intros ->. reflexivity.
Qed.

Lemma later_tick t a : later (sock a) (sock (Announcer_tick t a)).
Proof.
  unfold Announcer_tick. destruct (deadline a <=? t); [|apply later_refl].
  cbn [sock]. unfold Socket_send.
  destruct (isClosed (sock a)) eqn:Hc; [apply later_refl|].
  split; [reflexivity|]. split; [apply suffix_cons_r; reflexivity|].
  congruence.
Qed.

(** No socket is lost on the way: each socket of a daemon is found, some
    time on, among the sockets after the next event. *)
Lemma sockets_kept_step d e s :
  s ∈ sockets d -> exists s', s' ∈ sockets (step d e) /\ later s s'.
Proof.
  intros Hs. apply elem_of_sockets in Hs as [(name & a & Ha & ->)|Hc].
  - destruct e as [|c|]; cbn [step].
    + exists (sock (Announcer_tick (now d + 1) a)).
      split; [|apply later_tick].
      apply elem_of_sockets. left. exists name, (Announcer_tick (now d + 1) a).
      split; [|reflexivity]. cbn [tick live]. rewrite lookup_fmap, Ha. reflexivity.
    + unfold Reload.
      assert (Hsame : exists s', s' ∈ sockets d /\ later (sock a) s').
      { exists (sock a). split; [|apply later_refl].
        apply elem_of_sockets. left. eauto. }
      destruct (running d); cbn [negb fst]; [|exact Hsame].
      destruct (defaultAndValidate c) as [c' [verrs|]]; cbn [fst]; [exact Hsame|].
      destruct (desired c' !! name) as [ic|] eqn:Hd.
      * pose proof (reconcile_live d c' name) as Hl. rewrite Hd, Ha in Hl.
        cbn [reconcile_one] in Hl.
        destruct (interval a =? RAIntervalMilliseconds ic).
        -- exists (sock a). split; [|apply later_refl].
           apply elem_of_sockets. left. eauto.
        -- exists (sock a). split; [|apply later_refl].
           apply elem_of_sockets. left. eexists _, _. split; [exact Hl|reflexivity].
      * exists (Socket_close (sock a)). split; [|apply later_close].
        apply elem_of_sockets. right. cbn [reconcile closedSocks].
        apply elem_of_app. right. apply elem_of_stopped_sockets.
        exists name, a. split; [exact Ha|]. split; [|reflexivity].
        apply bool_decide_eq_true. exact Hd.
    + destruct (running d).
      * exists (Socket_close (sock a)). split; [|apply later_close].
        apply elem_of_sockets. right. cbn [cancel closedSocks].
        apply elem_of_app. right. apply elem_of_stopped_sockets.
        exists name, a. auto.
      * exists (sock a). split; [|apply later_refl].
        apply elem_of_sockets. left. eauto.
  - exists s. split; [|apply later_refl].
    apply elem_of_sockets. right.
    destruct (closedSocks_step d e) as [k Hk]. rewrite Hk.
    apply elem_of_app. left. exact Hc.
Qed.

Lemma sockets_kept_steps d es s :
  s ∈ sockets d -> exists s', s' ∈ sockets (steps d es) /\ later s s'.
Proof.
  revert d s. induction es as [|e es IH]; intros d s Hs; simpl.
  - exists s. split; [exact Hs | apply later_refl].
  - destruct (sockets_kept_step d e s Hs) as (s1 & Hs1 & Hl1).
    destruct (IH _ _ Hs1) as (s2 & Hs2 & Hl2).
    exists s2. split; [exact Hs2|]. apply (later_trans _ _ _ Hl1 Hl2).
Qed.

(** Once [Run] has returned nothing moves any more: no announcer, and the
    same closed sockets, whatever comes. *)
Lemma stopped_steps d es :
  running d = false -> live d = ∅ ->
  running (steps d es) = false /\ live (steps d es) = ∅ /\
  closedSocks (steps d es) = closedSocks d.
Proof.
  revert d. induction es as [|e es IH]; intros d Hr Hl; simpl; [auto|].
  assert (H : running (step d e) = false /\ live (step d e) = ∅ /\
              closedSocks (step d e) = closedSocks d).
  { destruct e as [|c|]; cbn [step].
    - cbn [tick running live closedSocks]. rewrite Hl, fmap_empty. auto.
    - unfold Reload. rewrite Hr. cbn [negb fst]. auto.
    - rewrite Hr. auto. }
  destruct H as (Hr' & Hl' & Hc'). destruct (IH _ Hr' Hl') as (? & ? & Hc'').
  rewrite Hc'' , Hc'. auto.
Qed.

Lemma sockets_stopped d : live d = ∅ -> sockets d = closedSocks d.
Proof. intros Hl. unfold sockets. rewrite Hl, map_to_list_empty. reflexivity. Qed.

(** C2. Let a daemon made by [New] live through any events [pre] and then
    the cancellation of the context of [Run].  When [Run] has returned, no
    announcer is left and every socket of the daemon reports closed; every
    socket the daemon had at any moment before, whether opened at the start
    or by a later [Reload], is among them with all the sends it had taken;
    and whatever events come afterwards, the sockets stay exactly as they
    are: closed, with no further send on any interface. *)
Theorem cancel_closes_every_socket
    (c : Config) (open : string -> bool) (d0 : Daemon) (pre : list event) :
  New c open = inl d0 ->
  let d1 := Run d0 (pre ++ [Cancel]) in
  running d1 = false /\ live d1 = ∅ /\
  (forall s, s ∈ sockets d1 -> isClosed s = true) /\
  (forall pre1 pre2 s,
     pre = pre1 ++ pre2 -> s ∈ sockets (Run d0 pre1) ->
     exists s', s' ∈ sockets d1 /\ isClosed s' = true /\ later s s') /\
  (forall post,
     running (steps d1 post) = false /\ live (steps d1 post) = ∅ /\
     sockets (steps d1 post) = sockets d1).
Proof.
  intros HN d1.
  pose proof (wf_Run _ _ _ (pre ++ [Cancel]) HN) as Hwf. fold d1 in Hwf.
  assert (Hr : running d1 = false).
  { subst d1. unfold Run. rewrite steps_app. simpl.
    destruct (running (steps (Run_enter d0) pre)) eqn:H; [reflexivity | exact H]. }
  pose proof (wf_stopped _ Hwf Hr) as Hl.
  assert (Hclosed : forall s, s ∈ sockets d1 -> isClosed s = true).
  { intros s Hs. rewrite (sockets_stopped _ Hl) in Hs. apply (wf_closed _ Hwf _ Hs). }
  split; [exact Hr|]. split; [exact Hl|]. split; [exact Hclosed|]. split.
  - intros pre1 pre2 s -> Hs.
    destruct (sockets_kept_steps _ (pre2 ++ [Cancel]) _ Hs) as (s' & Hs' & Hlater).
    exists s'. unfold Run in Hs'. rewrite <- steps_app, app_assoc in Hs'.
    split; [exact Hs'|]. split; [apply Hclosed; exact Hs' | exact Hlater].
  - intros post. destruct (stopped_steps d1 post Hr Hl) as (Hr' & Hl' & Hc').
    split; [exact Hr'|]. split; [exact Hl'|].
    rewrite (sockets_stopped _ Hl'), (sockets_stopped _ Hl). exact Hc'.
Qed.

Lemma cancel_closes_every_socket_witness :
  running (Run happy_daemon (happy_run ++ [Cancel])) = false /\
  live (Run happy_daemon (happy_run ++ [Cancel])) = ∅.
Proof.
  pose proof (cancel_closes_every_socket (happy_config 100) always_open
                happy_daemon happy_run happy_daemon_New) as (H1 & H2 & _).
  split; [exact H1 | exact H2].
Defined.

(** The scenario of [TestDaemonHappyPath], start to end: three sends 100 ms
    apart on both interfaces; after the reload [net1] sends every 200 ms
    and [net0] goes on every 100 ms; after the second reload [net1]'s
    socket is closed; after the cancellation both are. *)
Example happy_path :
  let d1 := Run happy_daemon happy_run in
  let d2 := steps d1 (DoReload (happy_config 200) :: replicate 650 Tick) in
  let d3 := steps d2 (DoReload net0_only :: replicate 150 Tick) in
  let d4 := steps d3 (Cancel :: replicate 150 Tick) in
  (sock <$> live d1 !! "net0" = Some (mkSocket "net0" false [300; 200; 100]) /\
   sock <$> live d1 !! "net1" = Some (mkSocket "net1" false [300; 200; 100])) /\
  (sock <$> live d2 !! "net0"
   = Some (mkSocket "net0" false
             [1000; 900; 800; 700; 600; 500; 400; 300; 200; 100]) /\
   sock <$> live d2 !! "net1"
   = Some (mkSocket "net1" false [950; 750; 550; 300; 200; 100])) /\
  (sockets d3
   = [mkSocket "net0" false
        [1100; 1000; 900; 800; 700; 600; 500; 400; 300; 200; 100];
      mkSocket "net1" true [950; 750; 550; 300; 200; 100]]) /\
  (sockets d4
   = [mkSocket "net1" true [950; 750; 550; 300; 200; 100];
      mkSocket "net0" true
        [1100; 1000; 900; 800; 700; 600; 500; 400; 300; 200; 100]]).
Proof. vm_compute. repeat split. Qed.

(** * More on the configuration code *)

(** ** The two custom validations, exactly *)

Lemma all_Some_inv {A : Type} (l : list (option A)) :
  None ∉ l -> exists xs, l = Some <$> xs.
Proof.
  induction l as [|[x|] l IH]; intros Hn.
  - exists []. reflexivity.
  - destruct IH as [xs ->].
    + intros H. apply Hn. apply elem_of_cons. right. exact H.
    + exists (x :: xs). reflexivity.
  - exfalso. apply Hn. apply elem_of_cons. left. reflexivity.
Qed.

Lemma not_None_fmap_Some {A : Type} (xs : list A) : None ∉ Some <$> xs.
Proof.
  intros H. apply list_elem_of_fmap in H as (x & Hx & _). discriminate.
Qed.

(** X1. [non_nil_and_unique_name] returns true exactly for a slice without
    [nil] element in which no two positions carry the same [Name]. *)
Theorem unique_name_validation_spec (fl : slice (option InterfaceConfig)) :
  non_nil_and_unique_name fl = true <->
  (None ∉ slice_elems fl) /\
  forall j k a b,
    slice_elems fl !! j = Some (Some a) -> slice_elems fl !! k = Some (Some b) ->
    Name a = Name b -> j = k.
Proof.
  unfold non_nil_and_unique_name. rewrite unique_name_loop_true. split.
  - intros (ifs & -> & Hnd & _). split; [apply not_None_fmap_Some|].
    intros j k a b Hj Hk Hab. rewrite list_lookup_fmap in Hj, Hk.
    destruct (ifs !! j) as [a'|] eqn:Ha; [|discriminate].
    destruct (ifs !! k) as [b'|] eqn:Hb; [|discriminate].
    injection Hj as ->. injection Hk as ->.
    apply (proj1 (NoDup_alt (Name <$> ifs)) Hnd j k (Name a)).
    + rewrite list_lookup_fmap, Ha. reflexivity.
    + rewrite list_lookup_fmap, Hb, Hab. reflexivity.
  - intros [Hn Hinj]. destruct (all_Some_inv _ Hn) as [ifs Hl].
    exists ifs. split; [exact Hl|]. split.
    + apply NoDup_alt. intros j k n Hj Hk. rewrite list_lookup_fmap in Hj, Hk.
      destruct (ifs !! j) as [a|] eqn:Ha; [|discriminate].
      destruct (ifs !! k) as [b|] eqn:Hb; [|discriminate].
      injection Hj as Hj. injection Hk as Hk.
      apply (Hinj j k a b).
      * rewrite Hl, list_lookup_fmap, Ha. reflexivity.
      * rewrite Hl, list_lookup_fmap, Hb. reflexivity.
      * congruence.
    + intros i _. apply not_elem_of_empty.
Qed.

Lemma collect_prefixes_nil acc l :
  None ∈ l -> collect_prefixes acc l = None.
Proof.
  revert acc. induction l as [|[e|] l IH]; intros acc Hin; simpl.
  - apply elem_of_nil in Hin. contradiction.
  - apply elem_of_cons in Hin as [Hin|Hin]; [discriminate|].
    destruct (netip.ParsePrefix (Prefix e)); apply IH; exact Hin.
  - reflexivity.
Qed.

Lemma collect_prefixes_Some acc ps :
  collect_prefixes acc (Some <$> ps)
  = Some (acc ++ omap (fun e => netip.ParsePrefix (Prefix e)) ps).
Proof.
  revert acc. induction ps as [|e ps IH]; intros acc; simpl.
  - rewrite app_nil_r. reflexivity.
  - destruct (netip.ParsePrefix (Prefix e)) as [p|]; rewrite IH.
    + rewrite <- app_assoc. reflexivity.
    + reflexivity.
Qed.

Lemma no_overlap_spec prefixes :
  no_overlap prefixes = true <->
  forall p0 p1, p0 ∈ prefixes -> p1 ∈ prefixes -> p0 <> p1 ->
                netip.Overlaps p0 p1 = false.
Proof.
  split.
  - intros H p0 p1 H0 H1 Hne. apply (no_overlap_true _ _ _ H H0 H1 Hne).
  - intros H. unfold no_overlap. apply forallb_forall. intros p0 H0.
    apply forallb_forall. intros p1 H1.
    apply list_elem_of_In in H0, H1.
    destruct (decide (p0 = p1)) as [->|Hne].
    + rewrite bool_decide_eq_false_2; [reflexivity | auto].
    + rewrite (H p0 p1 H0 H1 Hne), andb_false_r. reflexivity.
Qed.

Lemma non_overlapping_prefix_true (fl : slice (option PrefixConfig)) :
  non_nil_and_non_overlapping_prefix fl = true <->
  exists ps, slice_elems fl = Some <$> ps /\ prefixes_disjoint ps.
Proof.
  unfold non_nil_and_non_overlapping_prefix, prefixes_disjoint. split.
  - intros H.
    assert (Hn : None ∉ slice_elems fl).
    { intros Hin. rewrite (collect_prefixes_nil _ _ Hin) in H. discriminate. }
    destruct (all_Some_inv _ Hn) as [ps Hl]. exists ps. split; [exact Hl|].
    rewrite Hl, collect_prefixes_Some in H. simpl in H.
    intros a b p0 p1 Ha Hb H0 H1 Hne.
    apply (proj1 (no_overlap_spec _) H); [| |exact Hne].
    + apply list_elem_of_omap. eauto.
    + apply list_elem_of_omap. eauto.
  - intros (ps & -> & Hd). rewrite collect_prefixes_Some. simpl.
    apply no_overlap_spec. intros p0 p1 H0 H1 Hne.
    apply list_elem_of_omap in H0 as (a & Ha & H0).
    apply list_elem_of_omap in H1 as (b & Hb & H1).
    apply (Hd a b p0 p1 Ha Hb H0 H1 Hne).
Qed.

(** X2. [non_nil_and_non_overlapping_prefix] returns true exactly for a
    slice without [nil] element in which no two entries parse to different
    prefixes that overlap; an entry whose text does not parse plays no
    part. *)
Theorem non_overlapping_validation_spec (fl : slice (option PrefixConfig)) :
  non_nil_and_non_overlapping_prefix fl = true <->
  exists ps, slice_elems fl = Some <$> ps /\ prefixes_disjoint ps.
Proof. apply non_overlapping_prefix_true. Qed.

(** ** Acceptance, exactly *)

Lemma gte_lte_tags_None a b v :
  run_tags [("gte", isGte a); ("lte", isLte b)] v = None <-> a <= v <= b.
Proof.
  unfold isGte, isLte. simpl.
  destruct (Z.leb_spec a v), (Z.leb_spec v b); simpl; split; intros;
    try discriminate; try reflexivity; lia.
Qed.

Lemma Name_tags_None s : run_tags Name_tags s = None <-> s <> EmptyString.
Proof.
  unfold Name_tags, hasValue_string. simpl.
  case_bool_decide as Hs; simpl; split; intros Hx;
    try discriminate; try reflexivity; congruence.
Qed.

Lemma Prefix_tags_None s :
  run_tags Prefix_tags s = None <-> s <> EmptyString /\ isCIDRv6 s = true.
Proof.
  unfold Prefix_tags, hasValue_string. simpl. case_bool_decide as Hs; simpl.
  - split; [discriminate|]. intros [Hx _]. contradiction.
  - destruct (isCIDRv6 s); split; intros Hx; try discriminate; auto.
    destruct Hx as [_ Hx]. discriminate.
Qed.

Lemma validate_PrefixConfig_valid ns p :
  validate_PrefixConfig ns p = [] <-> PrefixConfig_valid p.
Proof.
  rewrite validate_PrefixConfig_nil, Prefix_tags_None. unfold PrefixConfig_valid.
  split.
  - intros ([Hne Hc] & (v & Hv & Hvt) & (w & Hw & Hwt)).
    apply ValidLifetime_tags_None in Hvt.
    apply PreferredLifetime_tags_None in Hwt as (Hw0 & o & Ho & Hle).
    rewrite Hv in Ho. injection Ho as <-.
    split; [exact Hne|]. split; [exact Hc|]. exists v, w. repeat split; auto; lia.
  - intros (Hne & Hc & v & w & Hv & Hw & Hr & Hmax).
    split; [auto|]. split.
    + exists v. split; [exact Hv|]. apply ValidLifetime_tags_None. lia.
    + exists w. split; [exact Hw|]. apply PreferredLifetime_tags_None.
      split; [lia|]. exists v. split; [exact Hv | lia].
Qed.

Lemma dive_all {A : Type} (P : A -> Prop) (vs : nat -> A -> list FieldError)
    (l : list (option A)) :
  (forall k x, vs k x = [] <-> P x) ->
  (forall k e, l !! k = Some e -> exists x, e = Some x /\ vs k x = []) <->
  exists xs, l = Some <$> xs /\ Forall P xs.
Proof.
  intros Hvs. split.
  - intros Hall.
    assert (Hn : None ∉ l).
    { intros Hin. apply list_elem_of_lookup in Hin as [k Hk].
      destruct (Hall k _ Hk) as (x & Hx & _). discriminate. }
    destruct (all_Some_inv _ Hn) as [xs ->]. exists xs. split; [reflexivity|].
    apply Forall_lookup. intros k x Hk.
    destruct (Hall k (Some x)) as (x' & Hx' & Hv).
    + rewrite list_lookup_fmap, Hk. reflexivity.
    + injection Hx' as <-. apply (Hvs k x). exact Hv.
  - intros (xs & -> & HP) k e Hk. rewrite list_lookup_fmap in Hk.
    destruct (xs !! k) as [x|] eqn:Hx; [|discriminate]. injection Hk as <-.
    exists x. split; [reflexivity|]. apply Hvs.
    apply (proj1 (Forall_lookup P xs) HP k x Hx).
Qed.

Lemma validate_InterfaceConfig_valid ns i :
  validate_InterfaceConfig ns i = [] <-> InterfaceConfig_valid i.
Proof.
  rewrite validate_InterfaceConfig_nil, Name_tags_None, RAInterval_tags_None.
  unfold CurrentHopLimit_tags, RouterLifetimeSeconds_tags,
    ReachableTimeMilliseconds_tags, RetransmitTimeMilliseconds_tags.
  rewrite !gte_lte_tags_None, non_overlapping_prefix_true.
  rewrite (dive_all PrefixConfig_valid
             (fun k p => validate_PrefixConfig
                           (ns +:+ elem_name "Prefixes" k +:+ ".") p))
    by (intros k x; apply validate_PrefixConfig_valid).
  unfold InterfaceConfig_valid. split.
  - intros (H1 & H2 & H3 & H4 & H5 & H6 & (ps & Hps & Hd) & (xs & Hxs & Hall)).
    repeat (split; [assumption|]).
    exists ps. split; [exact Hps|]. split; [exact Hd|].
    rewrite Hps in Hxs. apply (inj (fmap Some)) in Hxs. subst xs. exact Hall.
  - intros (H1 & H2 & H3 & H4 & H5 & H6 & ps & Hps & Hd & Hall).
    repeat (split; [assumption|]). split; exists ps; auto.
Qed.

Lemma validate_Struct_valid c : validate_Struct c = [] <-> Config_valid c.
Proof.
  rewrite validate_Struct_nil.
  rewrite (dive_all InterfaceConfig_valid
             (fun k i => validate_InterfaceConfig
                           ("Config." +:+ elem_name "Interfaces" k +:+ ".") i))
    by (intros k x; apply validate_InterfaceConfig_valid).
  unfold Config_valid, non_nil_and_unique_name. rewrite unique_name_loop_true.
  split.
  - intros ([l Hl] & (ifs & Hifs & Hnd & _) & (xs & Hxs & Hall)).
    rewrite Hl in *. simpl in Hifs, Hxs. subst l.
    apply (inj (fmap Some)) in Hxs. subst xs.
    exists ifs. auto.
  - intros (ifs & Hl & Hnd & Hall). rewrite Hl. simpl.
    split; [eauto|]. split; exists ifs; repeat split; auto.
    intros i _. apply not_elem_of_empty.
Qed.

Lemma validation_error_valid (c : Config) :
  validation_error c = None <-> Config_valid (defaults.Set_Config c).
Proof. rewrite validation_error_None. apply validate_Struct_valid. Qed.

(** X3. [defaultAndValidate] returns the nil error exactly when the
    configuration, with its defaults filled in, meets the constraints of
    the data model: a non-nil slice of non-nil interfaces with pairwise
    different, non-empty names, every number inside the range its field
    allows, and for each interface a slice of non-nil prefixes (the nil
    slice included) whose texts are IPv6 CIDRs, no two of which parse to
    different overlapping prefixes, with
    [0 <= preferred <= valid <= 4294967295]. *)
Theorem accepted_iff_valid (c : Config) :
  validation_error c = None <-> Config_valid (defaults.Set_Config c).
Proof. apply validation_error_valid. Qed.

(** ** What the error says *)

Lemma concat_imap_elem {B C : Type} (f : nat -> B -> list C) (l : list B) k x e :
  l !! k = Some x -> e ∈ f k x -> e ∈ concat (imap f l).
Proof.
  revert f k. induction l as [|b l IH]; intros f k Hk He; [discriminate|].
  simpl. apply elem_of_app. destruct k as [|k]; simpl in Hk.
  - injection Hk as ->. left. exact He.
  - right. apply (IH (f ∘ S) k Hk). exact He.
Qed.

Lemma elem_of_traverseField {A : Type} ns name
    (tags : list (string * (A -> bool))) v t :
  run_tags tags v = Some t ->
  mkFieldError (ns +:+ name) t ∈ traverseField ns name tags v.
Proof.
  intros H. unfold traverseField. rewrite H. apply elem_of_cons. left. reflexivity.
Qed.

Lemma elem_of_traverseField_dive {A : Type} ns name
    (tags : list (string * (slice (option A) -> bool))) vs s k x e :
  run_tags tags s = None -> slice_elems s !! k = Some (Some x) ->
  e ∈ vs (ns +:+ elem_name name k +:+ ".") x ->
  e ∈ traverseField_dive ns name tags vs s.
Proof.
  intros Ht Hk He. unfold traverseField_dive. rewrite Ht.
  apply (concat_imap_elem _ _ k (Some x) e Hk). exact He.
Qed.

Lemma unique_name_loop_Set names l :
  non_nil_and_unique_name_loop names
    (map (option_map defaults.Set_InterfaceConfig) l)
  = non_nil_and_unique_name_loop names l.
Proof.
  revert names. induction l as [|[i|] l IH]; intros names; simpl;
    [reflexivity | | reflexivity].
  case_bool_decide; [reflexivity | apply IH].
Qed.

Lemma collect_prefixes_Set acc l :
  collect_prefixes acc (map (option_map defaults.Set_PrefixConfig) l)
  = collect_prefixes acc l.
Proof.
  revert acc. induction l as [|[p|] l IH]; intros acc; simpl;
    [reflexivity | | reflexivity].
  destruct (netip.ParsePrefix (Prefix p)); apply IH.
Qed.

Lemma Interfaces_tags_Set c :
  run_tags Interfaces_tags (Interfaces (defaults.Set_Config c))
  = run_tags Interfaces_tags (Interfaces c).
Proof.
  unfold Interfaces_tags, non_nil_and_unique_name. simpl.
  rewrite set_slice_elems, unique_name_loop_Set.
  destruct (Interfaces c); reflexivity.
Qed.

Lemma Prefixes_tags_Set i :
  run_tags Prefixes_tags (Prefixes (defaults.Set_InterfaceConfig i))
  = run_tags Prefixes_tags (Prefixes i).
Proof.
  unfold Prefixes_tags, non_nil_and_non_overlapping_prefix. simpl.
  rewrite set_slice_elems, collect_prefixes_Set. reflexivity.
Qed.

Lemma interface_failure_tags i f t :
  interface_field_failure i f t ->
  forall ns, mkFieldError (ns +:+ f) t ∈ validate_InterfaceConfig ns i.
Proof.
  intros Hf ns. unfold validate_InterfaceConfig.
  destruct Hf as [H|H|H0 H|H|H|H|H|H|H|H|H|H].
  1: apply elem_of_app; left.
  2-4: apply elem_of_app; right; apply elem_of_app; left.
  5-6: do 2 (apply elem_of_app; right); apply elem_of_app; left.
  7-8: do 3 (apply elem_of_app; right); apply elem_of_app; left.
  9-10: do 4 (apply elem_of_app; right); apply elem_of_app; left.
  11-12: do 5 (apply elem_of_app; right); apply elem_of_app; left.
  all: apply elem_of_traverseField; simpl;
    unfold hasValue_string, hasValue_int, isGte, isLte.
  - rewrite H. reflexivity.
  - rewrite H. reflexivity.
  - apply Z.eqb_neq in H0. rewrite H0. simpl.
    destruct (Z.leb_spec 70 (RAIntervalMilliseconds i)); [lia | reflexivity].
  - destruct (Z.eqb_spec (RAIntervalMilliseconds i) 0); [lia|]. simpl.
    destruct (Z.leb_spec 70 (RAIntervalMilliseconds i)); [|lia].
    destruct (Z.leb_spec (RAIntervalMilliseconds i) 1800000); [lia | reflexivity].
  - destruct (Z.leb_spec 0 (CurrentHopLimit i)); [lia | reflexivity].
  - destruct (Z.leb_spec 0 (CurrentHopLimit i)); [|lia].
    destruct (Z.leb_spec (CurrentHopLimit i) 255); [lia | reflexivity].
  - destruct (Z.leb_spec 0 (RouterLifetimeSeconds i)); [lia | reflexivity].
  - destruct (Z.leb_spec 0 (RouterLifetimeSeconds i)); [|lia].
    destruct (Z.leb_spec (RouterLifetimeSeconds i) 65535); [lia | reflexivity].
  - destruct (Z.leb_spec 0 (ReachableTimeMilliseconds i)); [lia | reflexivity].
  - destruct (Z.leb_spec 0 (ReachableTimeMilliseconds i)); [|lia].
    destruct (Z.leb_spec (ReachableTimeMilliseconds i) 4294967295);
      [lia | reflexivity].
  - destruct (Z.leb_spec 0 (RetransmitTimeMilliseconds i)); [lia | reflexivity].
  - destruct (Z.leb_spec 0 (RetransmitTimeMilliseconds i)); [|lia].
    destruct (Z.leb_spec (RetransmitTimeMilliseconds i) 4294967295);
      [lia | reflexivity].
Qed.

(** X4. When the [Interfaces] slice passes its own validations (no [nil]
    element, no name twice), every scalar field of an interface that is
    outside what its tags allow, after defaulting, is reported: the error
    of [defaultAndValidate] holds an entry with the field's name space,
    [Config.Interfaces[k].<Field>], and the first tag that failed.  Several
    bad fields are all reported. *)
Theorem failing_interface_field_reported
    (c : Config) (l : list (option InterfaceConfig)) (k : nat)
    (iface : InterfaceConfig) (field tag : string) :
  Interfaces c = Some l ->
  non_nil_and_unique_name (Some l) = true ->
  l !! k = Some (Some iface) ->
  interface_field_failure (defaults.Set_InterfaceConfig iface) field tag ->
  exists verrs,
    validation_error c = Some verrs /\
    mkFieldError (interface_ns k +:+ field) tag ∈ verrs.
Proof.
  intros Hl Hu Hk Hf.
  assert (Hin : mkFieldError (interface_ns k +:+ field) tag
                ∈ validate_Struct (defaults.Set_Config c)).
  { unfold validate_Struct.
    apply (elem_of_traverseField_dive _ _ _ _ _ k
             (defaults.Set_InterfaceConfig iface)).
    - rewrite Interfaces_tags_Set, Hl. unfold Interfaces_tags. simpl.
      rewrite Hu. reflexivity.
    - apply Set_Config_lookup. rewrite Hl. exact Hk.
    - apply interface_failure_tags. exact Hf. }
  unfold validation_error, defaultAndValidate. cbn [snd].
  destruct (validate_Struct (defaults.Set_Config c)) as [|e es].
  - apply elem_of_nil in Hin. contradiction.
  - eexists. split; [reflexivity | exact Hin].
Qed.

Lemma prefix_failure_tags p f t :
  prefix_field_failure p f t ->
  forall ns, mkFieldError (ns +:+ f) t ∈ validate_PrefixConfig ns p.
Proof.
  intros Hf ns. unfold validate_PrefixConfig.
  destruct Hf as [H|H0 H|H|v H Hv|v H Hv|H|w H Hw|w H Hw Hlt].
  1-2: apply elem_of_app; left; apply elem_of_traverseField; simpl;
    unfold hasValue_string.
  3-5: apply elem_of_app; right; apply elem_of_app; left; rewrite H.
  6-8: do 2 (apply elem_of_app; right); rewrite H.
  - rewrite H. reflexivity.
  - rewrite bool_decide_eq_false_2 by exact H0. simpl. rewrite H. reflexivity.
  - apply elem_of_cons. left. reflexivity.
  - apply elem_of_traverseField. simpl. unfold isGte.
    destruct (Z.leb_spec 0 v); [lia | reflexivity].
  - apply elem_of_traverseField. simpl. unfold isGte, isLte.
    destruct (Z.leb_spec 0 v); [|lia].
    destruct (Z.leb_spec v 4294967295); [lia | reflexivity].
  - apply elem_of_cons. left. reflexivity.
  - apply elem_of_traverseField. simpl. unfold isGte.
    destruct (Z.leb_spec 0 w); [lia | reflexivity].
  - apply elem_of_traverseField. simpl. unfold isGte, isLteField.
    destruct (Z.leb_spec 0 w); [|lia].
    destruct (ValidLifetimeSeconds p) as [v|]; [|reflexivity].
    specialize (Hlt v eq_refl).
    destruct (Z.leb_spec w v); [lia | reflexivity].
Qed.

(** X5. When the [Interfaces] slice and the [Prefixes] slice of an
    interface pass their own validations, every field of a prefix entry
    that is outside what its tags allow, after defaulting, is reported
    under [Config.Interfaces[k].Prefixes[j].<Field>] with the first tag
    that failed: an empty or non-IPv6-CIDR text, a valid lifetime outside
    [0, 4294967295], a negative preferred lifetime, a preferred lifetime
    above the valid one. *)
Theorem failing_prefix_field_reported
    (c : Config) (l : list (option InterfaceConfig)) (k j : nat)
    (iface : InterfaceConfig) (p : PrefixConfig) (field tag : string) :
  Interfaces c = Some l ->
  non_nil_and_unique_name (Some l) = true ->
  l !! k = Some (Some iface) ->
  non_nil_and_non_overlapping_prefix (Prefixes iface) = true ->
  slice_elems (Prefixes iface) !! j = Some (Some p) ->
  prefix_field_failure (defaults.Set_PrefixConfig p) field tag ->
  exists verrs,
    validation_error c = Some verrs /\
    mkFieldError (prefix_ns k j +:+ field) tag ∈ verrs.
Proof.
  intros Hl Hu Hk Hno Hj Hf.
  assert (Hin : mkFieldError (prefix_ns k j +:+ field) tag
                ∈ validate_Struct (defaults.Set_Config c)).
  { unfold validate_Struct.
    apply (elem_of_traverseField_dive _ _ _ _ _ k
             (defaults.Set_InterfaceConfig iface)).
    - rewrite Interfaces_tags_Set, Hl. unfold Interfaces_tags. simpl.
      rewrite Hu. reflexivity.
    - apply Set_Config_lookup. rewrite Hl. exact Hk.
    - unfold validate_InterfaceConfig.
      do 6 (apply elem_of_app; right).
      apply (elem_of_traverseField_dive _ _ _ _ _ j
               (defaults.Set_PrefixConfig p)).
      + rewrite Prefixes_tags_Set. unfold Prefixes_tags. simpl.
        rewrite Hno. reflexivity.
      + apply Set_InterfaceConfig_lookup. exact Hj.
      + apply prefix_failure_tags. exact Hf. }
  unfold validation_error, defaultAndValidate. cbn [snd].
  destruct (validate_Struct (defaults.Set_Config c)) as [|e es].
  - apply elem_of_nil in Hin. contradiction.
  - eexists. split; [reflexivity | exact Hin].
Qed.

(** X6. When the [Interfaces] slice passes its own validations and the
    custom validation of an interface's [Prefixes] slice fails (a [nil]
    entry, or two entries that parse to different overlapping prefixes),
    the error holds the entry [Config.Interfaces[k].Prefixes] with the tag
    [non_nil_and_non_overlapping_prefix]. *)
Theorem failing_prefixes_slice_reported
    (c : Config) (l : list (option InterfaceConfig)) (k : nat)
    (iface : InterfaceConfig) :
  Interfaces c = Some l ->
  non_nil_and_unique_name (Some l) = true ->
  l !! k = Some (Some iface) ->
  non_nil_and_non_overlapping_prefix (Prefixes iface) = false ->
  exists verrs,
    validation_error c = Some verrs /\
    mkFieldError (interface_ns k +:+ "Prefixes")
      "non_nil_and_non_overlapping_prefix" ∈ verrs.
Proof.
  intros Hl Hu Hk Hno.
  assert (Hin : mkFieldError (interface_ns k +:+ "Prefixes")
                  "non_nil_and_non_overlapping_prefix"
                ∈ validate_Struct (defaults.Set_Config c)).
  { unfold validate_Struct.
    apply (elem_of_traverseField_dive _ _ _ _ _ k
             (defaults.Set_InterfaceConfig iface)).
    - rewrite Interfaces_tags_Set, Hl. unfold Interfaces_tags. simpl.
      rewrite Hu. reflexivity.
    - apply Set_Config_lookup. rewrite Hl. exact Hk.
    - unfold validate_InterfaceConfig.
      do 6 (apply elem_of_app; right).
      unfold traverseField_dive. rewrite Prefixes_tags_Set.
      unfold Prefixes_tags. simpl. rewrite Hno.
      apply elem_of_cons. left. reflexivity. }
  unfold validation_error, defaultAndValidate. cbn [snd].
  destruct (validate_Struct (defaults.Set_Config c)) as [|e es].
  - apply elem_of_nil in Hin. contradiction.
  - eexists. split; [reflexivity | exact Hin].
Qed.

(** ** Defaulting and validating again *)

Lemma Set_PrefixConfig_valid_id p :
  PrefixConfig_valid p -> defaults.Set_PrefixConfig p = p.
Proof.
  intros (_ & _ & v & w & Hv & Hw & _). destruct p as [t o a vl pl].
  simpl in *. subst. reflexivity.
Qed.

Lemma set_slice_id {A : Type} (f : A -> A) (s : slice (option A)) xs :
  slice_elems s = Some <$> xs -> Forall (fun x => f x = x) xs ->
  defaults.set_slice f s = s.
Proof.
  intros Hs Hall. destruct s as [l|]; [|reflexivity]. simpl in *. subst l.
  f_equal. induction Hall as [|x xs Hx _ IH]; simpl; [reflexivity|].
  rewrite Hx. f_equal. exact IH.
Qed.

Lemma Set_InterfaceConfig_valid_id i :
  InterfaceConfig_valid i -> defaults.Set_InterfaceConfig i = i.
Proof.
  intros (_ & Hra & _ & _ & _ & _ & ps & Hps & _ & Hall).
  destruct i as [n ra hop m o rl rt rx pf]. unfold defaults.Set_InterfaceConfig.
  simpl in *. unfold defaults.set_int.
  destruct (Z.eqb_spec ra 0); [lia|]. destruct (Z.eqb_spec hop 0); subst;
    (rewrite (set_slice_id _ pf ps Hps);
     [reflexivity
     | apply (Forall_impl _ _ _ Hall); apply Set_PrefixConfig_valid_id]).
Qed.

Lemma Set_Config_valid_id c : Config_valid c -> defaults.Set_Config c = c.
Proof.
  intros (ifs & Hl & _ & Hall). destruct c as [s]. unfold defaults.Set_Config.
  simpl in *. f_equal. apply (set_slice_id _ s ifs).
  - rewrite Hl. reflexivity.
  - apply (Forall_impl _ _ _ Hall). apply Set_InterfaceConfig_valid_id.
Qed.

(** X7. A configuration that meets the constraints as it is written is
    accepted and left exactly as it is: [defaultAndValidate] overwrites no
    field of it, a lifetime written as 0 included. *)
Theorem valid_config_untouched (c : Config) :
  Config_valid c -> defaultAndValidate c = (c, None).
Proof.
  intros Hv. unfold defaultAndValidate.
  rewrite (Set_Config_valid_id _ Hv).
  rewrite (proj2 (validate_Struct_valid c) Hv). reflexivity.
Qed.

(** X8. [defaultAndValidate] is idempotent: called on the configuration a
    first call left behind, it leaves the same configuration and returns the
    same error.  The daemon's callers pass one configuration object again
    and again. *)
Theorem defaultAndValidate_idempotent (c : Config) :
  defaultAndValidate (fst (defaultAndValidate c)) = defaultAndValidate c.
Proof.
  unfold defaultAndValidate. cbn [fst]. rewrite Set_Config_idem. reflexivity.
Qed.

(** ** Configurations made from an accepted one *)

Lemma sublist_fmap_Some_inv {A : Type} (k : list (option A)) (xs : list A) :
  k `sublist_of` (Some <$> xs) ->
  exists ys, k = Some <$> ys /\ ys `sublist_of` xs.
Proof.
  revert k. induction xs as [|x xs IH]; intros k Hk; simpl in Hk.
  - apply sublist_nil_r in Hk. subst k. exists []. split; [reflexivity|constructor].
  - apply sublist_cons_r in Hk as [Hk|(k' & -> & Hk)].
    + destruct (IH _ Hk) as (ys & -> & Hys). exists ys.
      split; [reflexivity|]. apply sublist_cons. exact Hys.
    + destruct (IH _ Hk) as (ys & -> & Hys). exists (x :: ys).
      split; [reflexivity|]. apply sublist_skip. exact Hys.
Qed.

Lemma Forall_of_sublist {A : Type} (P : A -> Prop) (ys xs : list A) :
  ys `sublist_of` xs -> Forall P xs -> Forall P ys.
Proof.
  induction 1 as [|x ys xs _ IH|x ys xs _ IH]; intros Hall.
  - constructor.
  - apply Forall_cons in Hall as [Hx Hall]. constructor; auto.
  - apply Forall_cons in Hall as [_ Hall]. auto.
Qed.

(** X9. Dropping interfaces from an accepted configuration gives an
    accepted configuration: any sub-slice of the interfaces, in their
    order, passes [defaultAndValidate], the empty slice included. *)
Theorem sub_configuration_accepted
    (c : Config) (l l' : list (option InterfaceConfig)) :
  validation_error c = None ->
  Interfaces c = Some l -> l' `sublist_of` l ->
  validation_error {| Interfaces := Some l' |} = None.
Proof.
  intros Hok Hl Hsub. apply validation_error_valid in Hok.
  apply validation_error_valid.
  destruct Hok as (ifs & Hifs & Hnd & Hall).
  cbn [defaults.Set_Config Interfaces defaults.set_slice] in *.
  rewrite Hl in Hifs. cbn [defaults.set_slice] in Hifs. injection Hifs as Hifs.
  assert (Hsub' : map (option_map defaults.Set_InterfaceConfig) l'
                  `sublist_of` (Some <$> ifs)).
  { rewrite <- Hifs. apply (fmap_sublist _ _ _ Hsub). }
  destruct (sublist_fmap_Some_inv _ _ Hsub') as (ys & Hys & Hsy).
  exists ys. split.
  { cbn [defaults.Set_Config Interfaces defaults.set_slice]. rewrite Hys.
    reflexivity. }
  split.
  - apply (sublist_NoDup (Name <$> ys) (Name <$> ifs)); [exact Hnd|].
    apply (fmap_sublist Name _ _ Hsy).
  - apply (Forall_of_sublist _ _ _ Hsy Hall).
Qed.

(** X10. The order of the interfaces does not matter to acceptance: a
    configuration is accepted exactly when any rearrangement of its
    interfaces is. *)
Theorem permuted_configuration_accepted (l l' : list (option InterfaceConfig)) :
  l ≡ₚ l' ->
  validation_error {| Interfaces := Some l |} = None <->
  validation_error {| Interfaces := Some l' |} = None.
Proof.
  assert (H : forall l l' : list (option InterfaceConfig), l ≡ₚ l' ->
            validation_error {| Interfaces := Some l |} = None ->
            validation_error {| Interfaces := Some l' |} = None).
  { clear. intros l l' Hp Hok. apply validation_error_valid in Hok.
    apply validation_error_valid. destruct Hok as (ifs & Hifs & Hnd & Hall).
    cbn [defaults.Set_Config Interfaces defaults.set_slice] in *.
    injection Hifs as Hifs.
    set (g := option_map defaults.Set_InterfaceConfig) in *.
    assert (Hp' : map g l' ≡ₚ Some <$> ifs).
    { rewrite <- Hifs. apply (fmap_Permutation g). symmetry. exact Hp. }
    assert (Hn : None ∉ map g l').
    { intros Hin. rewrite Hp' in Hin. apply (not_None_fmap_Some _ Hin). }
    destruct (all_Some_inv _ Hn) as [ys Hys].
    assert (Hperm : ys ≡ₚ ifs).
    { rewrite <- (omap_id_Some ys), <- (omap_id_Some ifs), <- Hys.
      apply omap_Permutation. exact Hp'. }
    exists ys. split.
    { cbn [defaults.Set_Config Interfaces defaults.set_slice]. fold g.
      rewrite Hys. reflexivity. }
    split.
    - rewrite Hperm. exact Hnd.
    - rewrite Hperm. exact Hall. }
  intros Hp. split; apply H; [exact Hp | symmetry; exact Hp].
Qed.

(** X11. In an accepted configuration the interval of an interface can be
    set to any value of [70, 1800000] and the configuration stays
    accepted, whatever the other interfaces are. *)
Theorem interval_change_accepted
    (c : Config) (l : list (option InterfaceConfig)) (k : nat)
    (iface : InterfaceConfig) (ms : Z) :
  validation_error c = None ->
  Interfaces c = Some l -> l !! k = Some (Some iface) ->
  70 <= ms <= 1800000 ->
  validation_error
    {| Interfaces :=
         Some (<[k := Some {| Name := Name iface;
                              RAIntervalMilliseconds := ms;
                              CurrentHopLimit := CurrentHopLimit iface;
                              Managed := Managed iface;
                              Other := Other iface;
                              RouterLifetimeSeconds := RouterLifetimeSeconds iface;
                              ReachableTimeMilliseconds :=
                                ReachableTimeMilliseconds iface;
                              RetransmitTimeMilliseconds :=
                                RetransmitTimeMilliseconds iface;
                              Prefixes := Prefixes iface |}]> l) |}
  = None.
Proof.
  intros Hok Hl Hk Hms. apply validation_error_valid in Hok.
  apply validation_error_valid. destruct Hok as (ifs & Hifs & Hnd & Hall).
  cbn [defaults.Set_Config Interfaces defaults.set_slice] in *.
  rewrite Hl in Hifs. cbn [defaults.set_slice] in Hifs. injection Hifs as Hifs.
  set (new := {| Name := Name iface; RAIntervalMilliseconds := ms;
                 CurrentHopLimit := CurrentHopLimit iface;
                 Managed := Managed iface; Other := Other iface;
                 RouterLifetimeSeconds := RouterLifetimeSeconds iface;
                 ReachableTimeMilliseconds := ReachableTimeMilliseconds iface;
                 RetransmitTimeMilliseconds := RetransmitTimeMilliseconds iface;
                 Prefixes := Prefixes iface |}).
  assert (Hold : ifs !! k = Some (defaults.Set_InterfaceConfig iface)).
  { assert (H : (Some <$> ifs) !! k
                = Some (Some (defaults.Set_InterfaceConfig iface))).
    { rewrite <- Hifs. change (map ?f ?x) with (f <$> x).
      rewrite list_lookup_fmap, Hk. reflexivity. }
    rewrite list_lookup_fmap in H.
    destruct (ifs !! k); [|discriminate]. injection H as ->. reflexivity. }
  exists (<[k := defaults.Set_InterfaceConfig new]> ifs). split; [|split].
  - cbn [defaults.Set_Config Interfaces defaults.set_slice]. f_equal.
    change (map ?f ?x) with (f <$> x).
    rewrite !list_fmap_insert. change (?f <$> l) with (map f l).
    rewrite Hifs. reflexivity.
  - rewrite list_fmap_insert.
    rewrite list_insert_id; [exact Hnd|].
    rewrite list_lookup_fmap, Hold. reflexivity.
  - apply Forall_insert; [exact Hall|].
    pose proof (proj1 (Forall_lookup _ _) Hall k _ Hold) as Hv.
    destruct Hv as (H1 & _ & H3 & H4 & H5 & H6 & H7).
    unfold InterfaceConfig_valid. subst new.
    cbn [defaults.Set_InterfaceConfig Name RAIntervalMilliseconds
         CurrentHopLimit RouterLifetimeSeconds ReachableTimeMilliseconds
         RetransmitTimeMilliseconds Prefixes] in *.
    split; [exact H1|]. split.
    { unfold defaults.set_int. destruct (Z.eqb_spec ms 0); lia. }
    auto.
Qed.

(** ** The flags play no part *)

Lemma unique_name_loop_map (g : InterfaceConfig -> InterfaceConfig) names l :
  (forall i, Name (g i) = Name i) ->
  non_nil_and_unique_name_loop names (map (option_map g) l)
  = non_nil_and_unique_name_loop names l.
Proof.
  intros Hg. revert names. induction l as [|[i|] l IH]; intros names; simpl;
    [reflexivity | | reflexivity].
  rewrite Hg. case_bool_decide; [reflexivity | apply IH].
Qed.

Lemma collect_prefixes_map (g : PrefixConfig -> PrefixConfig) acc l :
  (forall p, Prefix (g p) = Prefix p) ->
  collect_prefixes acc (map (option_map g) l) = collect_prefixes acc l.
Proof.
  intros Hg. revert acc. induction l as [|[p|] l IH]; intros acc; simpl;
    [reflexivity | | reflexivity].
  rewrite Hg. destruct (netip.ParsePrefix (Prefix p)); apply IH.
Qed.

Lemma concat_imap_map {A C : Type} (g : A -> A)
    (f : nat -> option A -> list C) (l : list (option A)) :
  (forall k e, f k (option_map g e) = f k e) ->
  concat (imap f (map (option_map g) l)) = concat (imap f l).
Proof.
  revert f. induction l as [|e l IH]; intros f Hf; simpl; [reflexivity|].
  rewrite Hf. f_equal. apply IH. intros k e'. apply Hf.
Qed.

Lemma traverseField_dive_map {A : Type} (g : A -> A) ns name
    (tags : list (string * (slice (option A) -> bool))) vs s :
  run_tags tags (defaults.set_slice g s) = run_tags tags s ->
  (forall ns' x, vs ns' (g x) = vs ns' x) ->
  traverseField_dive ns name tags vs (defaults.set_slice g s)
  = traverseField_dive ns name tags vs s.
Proof.
  intros Ht Hvs. unfold traverseField_dive. rewrite Ht.
  destruct (run_tags tags s); [reflexivity|].
  rewrite set_slice_elems. apply concat_imap_map.
  intros k [x|]; simpl; [apply Hvs | reflexivity].
Qed.

Lemma validate_InterfaceConfig_flags m o ol au ns i :
  validate_InterfaceConfig ns (InterfaceConfig_with_flags m o ol au i)
  = validate_InterfaceConfig ns i.
Proof.
  unfold validate_InterfaceConfig.
  cbn [InterfaceConfig_with_flags Name RAIntervalMilliseconds CurrentHopLimit
       RouterLifetimeSeconds ReachableTimeMilliseconds
       RetransmitTimeMilliseconds Prefixes].
  do 6 f_equal. apply traverseField_dive_map.
  - unfold Prefixes_tags, non_nil_and_non_overlapping_prefix. simpl.
    rewrite set_slice_elems, collect_prefixes_map; reflexivity.
  - reflexivity.
Qed.

Lemma validate_Struct_flags m o ol au c :
  validate_Struct (Config_with_flags m o ol au c) = validate_Struct c.
Proof.
  unfold validate_Struct. cbn [Config_with_flags Interfaces].
  apply traverseField_dive_map.
  - unfold Interfaces_tags, non_nil_and_unique_name. simpl.
    rewrite set_slice_elems, unique_name_loop_map by reflexivity.
    destruct (Interfaces c); reflexivity.
  - intros ns' x. apply validate_InterfaceConfig_flags.
Qed.

Lemma set_slice_comm {A : Type} (f g : A -> A) (s : slice (option A)) :
  (forall x, f (g x) = g (f x)) ->
  defaults.set_slice f (defaults.set_slice g s)
  = defaults.set_slice g (defaults.set_slice f s).
Proof.
  intros H. destruct s as [l|]; [|reflexivity]. simpl. f_equal.
  rewrite !map_map. apply map_ext. intros [x|]; simpl; [|reflexivity].
  rewrite H. reflexivity.
Qed.

Lemma Set_Config_flags m o ol au c :
  defaults.Set_Config (Config_with_flags m o ol au c)
  = Config_with_flags m o ol au (defaults.Set_Config c).
Proof.
  unfold defaults.Set_Config, Config_with_flags. cbn [Interfaces]. f_equal.
  apply set_slice_comm. intros i.
  unfold defaults.Set_InterfaceConfig, InterfaceConfig_with_flags.
  cbn [Name RAIntervalMilliseconds CurrentHopLimit Managed Other
       RouterLifetimeSeconds ReachableTimeMilliseconds
       RetransmitTimeMilliseconds Prefixes].
  f_equal. apply set_slice_comm. reflexivity.
Qed.

(** X12. The flags [Managed], [Other], [OnLink] and [Autonomous] play no
    part in validation: overwriting them, everywhere and with any values,
    leaves the error [defaultAndValidate] returns exactly as it was, and
    defaulting never touches them. *)
Theorem flags_do_not_matter (managed other onLink autonomous : bool) (c : Config) :
  validation_error (Config_with_flags managed other onLink autonomous c)
  = validation_error c /\
  fst (defaultAndValidate (Config_with_flags managed other onLink autonomous c))
  = Config_with_flags managed other onLink autonomous
      (fst (defaultAndValidate c)).
Proof.
  unfold validation_error, defaultAndValidate. cbn [fst snd].
  rewrite Set_Config_flags, validate_Struct_flags. split; reflexivity.
Qed.

(** ** The properties above on sample configurations *)

Lemma failing_interface_field_reported_witness :
  (exists verrs,
     validation_error bad_header_config = Some verrs /\
     mkFieldError (interface_ns 1 +:+ "CurrentHopLimit") "lte" ∈ verrs) /\
  (exists verrs,
     validation_error bad_header_config = Some verrs /\
     mkFieldError (interface_ns 1 +:+ "RouterLifetimeSeconds") "gte" ∈ verrs).
Proof.
  split.
  - apply (failing_interface_field_reported bad_header_config
             [Some net0; Some bad_header_interface] 1 bad_header_interface
             "CurrentHopLimit" "lte" eq_refl);
      [vm_compute; reflexivity | reflexivity |].
    apply CurrentHopLimit_lte. vm_compute. reflexivity.
  - apply (failing_interface_field_reported bad_header_config
             [Some net0; Some bad_header_interface] 1 bad_header_interface
             "RouterLifetimeSeconds" "gte" eq_refl);
      [vm_compute; reflexivity | reflexivity |].
    apply RouterLifetime_gte. vm_compute. reflexivity.
Defined.

Lemma failing_prefix_field_reported_witness :
  exists verrs,
    validation_error ipv4_prefix_config = Some verrs /\
    mkFieldError (prefix_ns 0 0 +:+ "Prefix") "cidrv6" ∈ verrs.
Proof.
  apply (failing_prefix_field_reported ipv4_prefix_config
           [Some ipv4_prefix_interface] 0 0 ipv4_prefix_interface ipv4_prefix
           "Prefix" "cidrv6" eq_refl);
    [vm_compute; reflexivity | reflexivity | vm_compute; reflexivity
    | reflexivity |].
  apply Prefix_cidrv6; [discriminate | vm_compute; reflexivity].
Defined.

Lemma failing_prefixes_slice_reported_witness :
  exists verrs,
    validation_error nested_prefixes_config = Some verrs /\
    mkFieldError (interface_ns 0 +:+ "Prefixes")
      "non_nil_and_non_overlapping_prefix" ∈ verrs.
Proof.
  apply (failing_prefixes_slice_reported nested_prefixes_config
           [Some nested_prefixes_interface] 0 nested_prefixes_interface
           eq_refl); [vm_compute; reflexivity | reflexivity
                     | vm_compute; reflexivity].
Defined.

Lemma equal_lifetimes_config_valid : Config_valid equal_lifetimes_config.
Proof.
  rewrite <- (Set_Config_idem equal_lifetimes_config) at 1.
  change (defaults.Set_Config equal_lifetimes_config)
    with equal_lifetimes_config.
  apply validation_error_valid. vm_compute. reflexivity.
Qed.

Lemma valid_config_untouched_witness :
  defaultAndValidate equal_lifetimes_config = (equal_lifetimes_config, None).
Proof.
  exact (valid_config_untouched equal_lifetimes_config
           equal_lifetimes_config_valid).
Defined.

Lemma happy_config_accepted : validation_error (happy_config 200) = None.
Proof. vm_compute. reflexivity. Qed.

Lemma sub_configuration_accepted_witness :
  validation_error {| Interfaces := Some [Some net0] |} = None.
Proof.
  apply (sub_configuration_accepted (happy_config 200)
           [Some net0; Some (net1 200)] [Some net0] happy_config_accepted
           eq_refl).
  apply sublist_skip, sublist_cons, sublist_nil.
Defined.

Lemma permuted_configuration_accepted_witness :
  validation_error {| Interfaces := Some [Some (net1 200); Some net0] |} = None.
Proof.
  apply (proj1 (permuted_configuration_accepted
                  [Some net0; Some (net1 200)] [Some (net1 200); Some net0]
                  (perm_swap _ _ _))).
  exact happy_config_accepted.
Defined.

Lemma interval_change_accepted_witness :
  validation_error
    {| Interfaces :=
         Some (<[1%nat := Some (mkInterfaceConfig "net1" 70 0 false false 0 0 0
                                  None)]>
                 [Some net0; Some (net1 200)]) |}
  = None.
Proof.
  apply (interval_change_accepted (happy_config 200)
           [Some net0; Some (net1 200)] 1 (net1 200) 70 happy_config_accepted
           eq_refl eq_refl).
  lia.
Defined.

(** * Intervals, lifetimes and defaults, on what [defaultAndValidate] returns *)

(** ** Replacing an entry *)

Lemma slice_lookup_Some {A : Type} (s : slice A) k x :
  slice_elems s !! k = Some x -> exists l, s = Some l /\ l !! k = Some x.
Proof. destruct s as [l|]; [eauto | discriminate]. Qed.

Lemma replace_interface_elems k i c :
  slice_elems (Interfaces (replace_interface k i c))
  = <[k := Some i]> (slice_elems (Interfaces c)).
Proof. destruct c as [[l|]]; reflexivity. Qed.

Lemma replace_prefix_elems j p i :
  slice_elems (Prefixes (replace_prefix j p i))
  = <[j := Some p]> (slice_elems (Prefixes i)).
Proof. destruct i as [n ra h m o rl rt rx [l|]]; reflexivity. Qed.

Lemma replace_interface_id k i c :
  slice_elems (Interfaces c) !! k = Some (Some i) -> replace_interface k i c = c.
Proof.
  intros Hk. apply slice_lookup_Some in Hk as (l & Hl & Hk).
  destruct c as [s]. simpl in Hl. subst s. unfold replace_interface. simpl.
  rewrite (list_insert_id _ _ _ Hk). reflexivity.
Qed.

Lemma replace_prefix_id j p i :
  slice_elems (Prefixes i) !! j = Some (Some p) -> replace_prefix j p i = i.
Proof.
  intros Hj. apply slice_lookup_Some in Hj as (l & Hl & Hj).
  destruct i as [n ra h m o rl rt rx s]. simpl in Hl. subst s.
  unfold replace_prefix. simpl. rewrite (list_insert_id _ _ _ Hj). reflexivity.
Qed.

Lemma replace_interface_twice k i i' c :
  replace_interface k i (replace_interface k i' c) = replace_interface k i c.
Proof.
  destruct c as [[l|]]; unfold replace_interface; simpl; [|reflexivity].
  rewrite list_insert_insert_eq. reflexivity.
Qed.

Lemma replace_prefix_twice j p p' i :
  replace_prefix j p (replace_prefix j p' i) = replace_prefix j p i.
Proof.
  destruct i as [n ra h m o rl rt rx [l|]]; unfold replace_prefix; simpl;
    [|reflexivity].
  rewrite list_insert_insert_eq. reflexivity.
Qed.

Lemma replace_interface_lookup k i c e :
  slice_elems (Interfaces c) !! k = Some e ->
  slice_elems (Interfaces (replace_interface k i c)) !! k = Some (Some i).
Proof.
  intros Hk. rewrite replace_interface_elems. apply list_lookup_insert_eq.
  apply (lookup_lt_Some _ _ _ Hk).
Qed.

Lemma replace_prefix_lookup j p i e :
  slice_elems (Prefixes i) !! j = Some e ->
  slice_elems (Prefixes (replace_prefix j p i)) !! j = Some (Some p).
Proof.
  intros Hj. rewrite replace_prefix_elems. apply list_lookup_insert_eq.
  apply (lookup_lt_Some _ _ _ Hj).
Qed.

Lemma Set_Config_replace k i c :
  defaults.Set_Config (replace_interface k i c)
  = replace_interface k (defaults.Set_InterfaceConfig i) (defaults.Set_Config c).
Proof.
  destruct c as [[l|]]; unfold defaults.Set_Config, replace_interface; simpl;
    [|reflexivity].
  do 2 f_equal. change (map ?f ?x) with (f <$> x).
  rewrite list_fmap_insert. reflexivity.
Qed.

Lemma Set_InterfaceConfig_replace j p i :
  defaults.Set_InterfaceConfig (replace_prefix j p i)
  = replace_prefix j (defaults.Set_PrefixConfig p)
      (defaults.Set_InterfaceConfig i).
Proof.
  destruct i as [n ra h m o rl rt rx [l|]];
    unfold defaults.Set_InterfaceConfig, replace_prefix; simpl; [|reflexivity].
  do 2 f_equal. change (map ?f ?x) with (f <$> x).
  rewrite list_fmap_insert. reflexivity.
Qed.

Lemma Set_InterfaceConfig_with_interval ms i :
  defaults.Set_InterfaceConfig (with_interval ms i)
  = with_interval (defaults.set_int 600000 ms) (defaults.Set_InterfaceConfig i).
Proof. reflexivity. Qed.

Lemma Config_valid_lookup c k i :
  Config_valid c -> slice_elems (Interfaces c) !! k = Some (Some i) ->
  InterfaceConfig_valid i.
Proof.
  intros (ifs & Hl & _ & Hall) Hk. rewrite Hl in Hk. simpl in Hk.
  rewrite list_lookup_fmap in Hk.
  destruct (ifs !! k) as [i'|] eqn:Hi; [|discriminate]. injection Hk as ->.
  apply (proj1 (Forall_lookup _ _) Hall k i Hi).
Qed.

Lemma InterfaceConfig_valid_lookup i j p :
  InterfaceConfig_valid i -> slice_elems (Prefixes i) !! j = Some (Some p) ->
  PrefixConfig_valid p.
Proof.
  intros (_ & _ & _ & _ & _ & _ & ps & Hps & _ & Hall) Hj.
  rewrite Hps, list_lookup_fmap in Hj.
  destruct (ps !! j) as [p'|] eqn:Hp; [|discriminate]. injection Hj as ->.
  apply (proj1 (Forall_lookup _ _) Hall j p Hp).
Qed.

Lemma elem_of_insert_inv {A : Type} (l : list A) k x y :
  y ∈ <[k := x]> l -> y = x \/ y ∈ l.
Proof.
  intros Hy. apply list_elem_of_lookup in Hy as [n Hn].
  destruct (decide (k = n)) as [->|Hne].
  - left. rewrite list_lookup_insert_eq in Hn.
    + congruence.
    + apply lookup_lt_Some in Hn. rewrite length_insert in Hn. exact Hn.
  - right. rewrite list_lookup_insert_ne in Hn by exact Hne.
    apply list_elem_of_lookup. eauto.
Qed.

(** An entry of a valid configuration can be replaced by a valid interface
    of the same name. *)
Lemma Config_valid_replace c k old new :
  Config_valid c -> slice_elems (Interfaces c) !! k = Some (Some old) ->
  Name new = Name old -> InterfaceConfig_valid new ->
  Config_valid (replace_interface k new c).
Proof.
  intros (ifs & Hl & Hnd & Hall) Hk Hn Hv.
  assert (Hold : ifs !! k = Some old).
  { rewrite Hl in Hk. simpl in Hk. rewrite list_lookup_fmap in Hk.
    destruct (ifs !! k); [|discriminate]. injection Hk as ->. reflexivity. }
  exists (<[k := new]> ifs). split; [|split].
  - unfold replace_interface. rewrite Hl. simpl. rewrite list_fmap_insert.
    reflexivity.
  - rewrite list_fmap_insert, list_insert_id; [exact Hnd|].
    rewrite list_lookup_fmap, Hold, Hn. reflexivity.
  - apply Forall_insert; assumption.
Qed.

(** A prefix entry of a valid interface can be replaced by a valid entry
    with the same prefix text. *)
Lemma InterfaceConfig_valid_replace i j old new :
  InterfaceConfig_valid i ->
  slice_elems (Prefixes i) !! j = Some (Some old) ->
  Prefix new = Prefix old -> PrefixConfig_valid new ->
  InterfaceConfig_valid (replace_prefix j new i).
Proof.
  intros (H1 & H2 & H3 & H4 & H5 & H6 & ps & Hps & Hd & Hall) Hj Ht Hv.
  assert (Hold : ps !! j = Some old).
  { rewrite Hps, list_lookup_fmap in Hj.
    destruct (ps !! j); [|discriminate]. injection Hj as ->. reflexivity. }
  unfold InterfaceConfig_valid. cbn [replace_prefix Name RAIntervalMilliseconds
    CurrentHopLimit RouterLifetimeSeconds ReachableTimeMilliseconds
    RetransmitTimeMilliseconds].
  repeat (split; [assumption|]).
  exists (<[j := new]> ps). split; [|split].
  - rewrite replace_prefix_elems, Hps, list_fmap_insert. reflexivity.
  - assert (Hback : forall a, a ∈ <[j := new]> ps ->
                      exists a', a' ∈ ps /\ Prefix a' = Prefix a).
    { intros a Ha. apply elem_of_insert_inv in Ha as [->|Ha].
      - exists old. split; [|symmetry; exact Ht].
        apply list_elem_of_lookup. eauto.
      - exists a. auto. }
    intros a b p0 p1 Ha Hb H0 H'1 Hne.
    destruct (Hback a Ha) as (a' & Ha' & Hta).
    destruct (Hback b Hb) as (b' & Hb' & Htb).
    apply (Hd a' b' p0 p1 Ha' Hb'); [rewrite Hta | rewrite Htb |]; assumption.
  - apply Forall_insert; assumption.
Qed.

Lemma Set_Config_replace_same c k old new :
  slice_elems (Interfaces c) !! k = Some (Some old) ->
  defaults.Set_InterfaceConfig new = defaults.Set_InterfaceConfig old ->
  defaults.Set_Config (replace_interface k new c) = defaults.Set_Config c.
Proof.
  intros Hk He. rewrite Set_Config_replace, He.
  apply replace_interface_id, Set_Config_lookup, Hk.
Qed.

Lemma Set_InterfaceConfig_replace_same i j old new :
  slice_elems (Prefixes i) !! j = Some (Some old) ->
  defaults.Set_PrefixConfig new = defaults.Set_PrefixConfig old ->
  defaults.Set_InterfaceConfig (replace_prefix j new i)
  = defaults.Set_InterfaceConfig i.
Proof.
  intros Hj He. rewrite Set_InterfaceConfig_replace, He.
  apply replace_prefix_id, Set_InterfaceConfig_lookup, Hj.
Qed.

(** Replacing, under the defaults. *)
Lemma Config_valid_Set_replace c k old new :
  slice_elems (Interfaces c) !! k = Some (Some old) ->
  Name new = Name old ->
  (InterfaceConfig_valid (defaults.Set_InterfaceConfig old) ->
   InterfaceConfig_valid (defaults.Set_InterfaceConfig new)) ->
  Config_valid (defaults.Set_Config c) ->
  Config_valid (defaults.Set_Config (replace_interface k new c)).
Proof.
  intros Hk Hn Himp Hv. rewrite Set_Config_replace.
  apply (Config_valid_replace _ k (defaults.Set_InterfaceConfig old)).
  - exact Hv.
  - apply Set_Config_lookup, Hk.
  - exact Hn.
  - apply Himp, (Config_valid_lookup _ k _ Hv), Set_Config_lookup, Hk.
Qed.

Lemma InterfaceConfig_valid_Set_replace i j old new :
  slice_elems (Prefixes i) !! j = Some (Some old) ->
  Prefix new = Prefix old ->
  (PrefixConfig_valid (defaults.Set_PrefixConfig old) ->
   PrefixConfig_valid (defaults.Set_PrefixConfig new)) ->
  InterfaceConfig_valid (defaults.Set_InterfaceConfig i) ->
  InterfaceConfig_valid (defaults.Set_InterfaceConfig (replace_prefix j new i)).
Proof.
  intros Hj Ht Himp Hv. rewrite Set_InterfaceConfig_replace.
  apply (InterfaceConfig_valid_replace _ j (defaults.Set_PrefixConfig old)).
  - exact Hv.
  - apply Set_InterfaceConfig_lookup, Hj.
  - exact Ht.
  - apply Himp, (InterfaceConfig_valid_lookup _ j _ Hv),
      Set_InterfaceConfig_lookup, Hj.
Qed.

(** ** What the outcome depends on *)

Lemma defaultAndValidate_Set_eq c d :
  defaults.Set_Config c = defaults.Set_Config d ->
  defaultAndValidate c = defaultAndValidate d.
Proof. unfold defaultAndValidate. intros ->. reflexivity. Qed.

Lemma defaultAndValidate_valid c :
  Config_valid (defaults.Set_Config c) ->
  defaultAndValidate c = (defaults.Set_Config c, None).
Proof.
  intros Hv. apply validation_error_valid in Hv.
  unfold validation_error, defaultAndValidate in Hv. cbn [snd] in Hv.
  unfold defaultAndValidate. cbv zeta. rewrite Hv. reflexivity.
Qed.

Lemma defaultAndValidate_written c written :
  defaults.Set_Config written = defaults.Set_Config c ->
  Config_valid written -> defaultAndValidate c = (written, None).
Proof.
  intros Hs Hv. rewrite (defaultAndValidate_Set_eq c written (eq_sym Hs)).
  rewrite defaultAndValidate_valid;
    rewrite (Set_Config_valid_id _ Hv); [reflexivity | exact Hv].
Qed.

(** ** The interval of one interface *)

Lemma with_interval_id i : with_interval (RAIntervalMilliseconds i) i = i.
Proof. destruct i; reflexivity. Qed.

Lemma InterfaceConfig_valid_with_interval i ms ms' :
  InterfaceConfig_valid (with_interval ms i) -> 70 <= ms' <= 1800000 ->
  InterfaceConfig_valid (with_interval ms' i).
Proof.
  intros (H1 & _ & H) Hr. split; [exact H1|]. split; [exact Hr|]. exact H.
Qed.

Lemma set_int_interval v :
  70 <= defaults.set_int 600000 v <= 1800000 <-> v = 0 \/ 70 <= v <= 1800000.
Proof. unfold defaults.set_int. destruct (Z.eqb_spec v 0); lia. Qed.

(** A configuration is valid under the defaults exactly when the interval
    of its interface at [k] is zero or in range and the configuration with
    that interval written as 600000 is valid under the defaults. *)
Lemma interval_valid_iff c k iface :
  slice_elems (Interfaces c) !! k = Some (Some iface) ->
  Config_valid (defaults.Set_Config c) <->
  (RAIntervalMilliseconds iface = 0 \/
   70 <= RAIntervalMilliseconds iface <= 1800000) /\
  Config_valid
    (defaults.Set_Config (replace_interface k (with_interval 600000 iface) c)).
Proof.
  intros Hk.
  assert (Hset : defaults.Set_InterfaceConfig iface
                 = with_interval
                     (defaults.set_int 600000 (RAIntervalMilliseconds iface))
                     (defaults.Set_InterfaceConfig iface)).
  { symmetry. apply (with_interval_id (defaults.Set_InterfaceConfig iface)). }
  split.
  - intros Hv.
    pose proof (Config_valid_lookup _ k _ Hv (Set_Config_lookup _ _ _ Hk)) as Hi.
    assert (Hr : RAIntervalMilliseconds iface = 0 \/
                 70 <= RAIntervalMilliseconds iface <= 1800000).
    { apply set_int_interval. destruct Hi as (_ & Hra & _). exact Hra. }
    split; [exact Hr|].
    apply (Config_valid_Set_replace c k iface); try assumption; [reflexivity|].
    intros Hi'. rewrite Set_InterfaceConfig_with_interval.
    rewrite Hset in Hi'.
    apply (InterfaceConfig_valid_with_interval _ _ _ Hi'). vm_compute.
    split; discriminate.
  - intros [Hr Hv].
    rewrite <- (replace_interface_id k iface c Hk).
    rewrite <- (replace_interface_twice k iface (with_interval 600000 iface) c).
    apply (Config_valid_Set_replace _ k (with_interval 600000 iface));
      try assumption.
    + apply (replace_interface_lookup _ _ _ _ Hk).
    + reflexivity.
    + rewrite Set_InterfaceConfig_with_interval. intros Hi'. rewrite Hset.
      apply (InterfaceConfig_valid_with_interval _ _ _ Hi').
      apply set_int_interval. exact Hr.
Qed.

Lemma Set_InterfaceConfig_zero_interval iface :
  RAIntervalMilliseconds iface = 0 ->
  defaults.Set_InterfaceConfig (with_interval 600000 iface)
  = defaults.Set_InterfaceConfig iface.
Proof.
  intros H0. unfold defaults.Set_InterfaceConfig, with_interval. simpl.
  rewrite H0. reflexivity.
Qed.

(** C6, amended.  For an interface of the configuration with interval [v],
    and [written] the configuration in which that interval is written as
    600000: when [v] is not zero and lies below 70 or above 1800000,
    [defaultAndValidate] returns a non-nil error; when [v] is zero, the
    configuration [defaultAndValidate] leaves behind carries 600000 there
    and [defaultAndValidate] returns what it returns for [written];
    [defaultAndValidate] returns the nil error exactly when [v] is zero or
    lies in [70, 1800000] and it returns the nil error for [written]; and
    that is exactly when [v] is zero or in that range and [written], with
    the defaults filled in, meets every constraint of the data model. *)
Theorem interval_range_enforced (c : Config) (k : nat) (iface : InterfaceConfig) :
  slice_elems (Interfaces c) !! k = Some (Some iface) ->
  let v := RAIntervalMilliseconds iface in
  let written := replace_interface k (with_interval 600000 iface) c in
  (v <> 0 -> v < 70 \/ 1800000 < v -> validation_error c <> None) /\
  (v = 0 ->
   (exists iface',
      slice_elems (Interfaces (fst (defaultAndValidate c))) !! k
      = Some (Some iface') /\
      RAIntervalMilliseconds iface' = 600000) /\
   defaultAndValidate c = defaultAndValidate written) /\
  (validation_error c = None <->
   (v = 0 \/ 70 <= v <= 1800000) /\ validation_error written = None) /\
  (validation_error c = None <->
   (v = 0 \/ 70 <= v <= 1800000) /\
   Config_valid (defaults.Set_Config written)).
Proof.
  intros Hk v written. subst v written.
  pose proof (interval_valid_iff c k iface Hk) as Hiff.
  split; [|split; [|split]].
  - intros Hnz Hout Hok. apply validation_error_valid, Hiff in Hok.
    destruct Hok as [Hr _]. lia.
  - intros H0. split.
    + exists (defaults.Set_InterfaceConfig iface).
      split; [apply Set_Config_lookup, Hk|].
      cbn [defaults.Set_InterfaceConfig RAIntervalMilliseconds].
      rewrite H0. reflexivity.
    + apply defaultAndValidate_Set_eq. symmetry.
      apply (Set_Config_replace_same c k iface _ Hk).
      apply Set_InterfaceConfig_zero_interval, H0.
  - rewrite !validation_error_valid. exact Hiff.
  - rewrite validation_error_valid. exact Hiff.
Qed.

Lemma zero_interval_written_valid :
  Config_valid
    (defaults.Set_Config
       (replace_interface 0
          (with_interval 600000
             (mkInterfaceConfig "net0" 0 0 false false 0 0 0 None))
          zero_interval_config)).
Proof.
  exists [mkInterfaceConfig "net0" 600000 0 false false 0 0 0 None].
  split; [reflexivity|]. split; [apply NoDup_singleton|].
  apply Forall_singleton. unfold InterfaceConfig_valid. simpl.
  repeat (split; [first [lia | discriminate]|]).
  exists []. split; [reflexivity|]. split; [|constructor].
  intros a b p0 p1 Ha. apply elem_of_nil in Ha. contradiction.
Qed.

Lemma interval_range_enforced_witness :
  validation_error short_interval_config <> None /\
  validation_error zero_interval_config = None /\
  defaultAndValidate zero_interval_config
  = ({| Interfaces :=
          Some [Some (mkInterfaceConfig "net0" 600000 0 false false 0 0 0
                        None)] |}, None).
Proof.
  split; [|split].
  - refine (proj1 (interval_range_enforced short_interval_config 0
                     (mkInterfaceConfig "net0" 69 0 false false 0 0 0 None)
                     eq_refl) _ _).
    + simpl. lia.
    + simpl. lia.
  - apply (proj2 (proj2 (proj2 (interval_range_enforced zero_interval_config 0
                     (mkInterfaceConfig "net0" 0 0 false false 0 0 0 None)
                     eq_refl)))).
    split; [left; reflexivity | exact zero_interval_written_valid].
  - rewrite (proj2 (proj1 (proj2 (interval_range_enforced zero_interval_config 0
                     (mkInterfaceConfig "net0" 0 0 false false 0 0 0 None)
                     eq_refl)) eq_refl)).
    vm_compute. reflexivity.
Defined.

(** ** The lifetimes of one prefix entry *)

Lemma PrefixConfig_valid_Set p :
  PrefixConfig_valid (defaults.Set_PrefixConfig p) <->
  Prefix p <> EmptyString /\ isCIDRv6 (Prefix p) = true /\
  (0 <= effective_preferred p <= effective_valid p /\
   effective_valid p <= 4294967295).
Proof.
  unfold PrefixConfig_valid.
  rewrite Set_PrefixConfig_valid, Set_PrefixConfig_preferred.
  change (Prefix (defaults.Set_PrefixConfig p)) with (Prefix p).
  split.
  - intros (H1 & H2 & v & w & Hv & Hw & H).
    injection Hv as <-. injection Hw as <-. auto.
  - intros (H1 & H2 & H). split; [exact H1|]. split; [exact H2|].
    eexists _, _. split; [reflexivity|]. split; [reflexivity|]. exact H.
Qed.

(** A configuration is valid under the defaults exactly when the lifetimes
    its prefix entry at [k], [j] is validated with are in order and the
    configuration with both lifetimes of that entry left out is valid under
    the defaults. *)
Lemma lifetimes_valid_iff c k j iface p :
  slice_elems (Interfaces c) !! k = Some (Some iface) ->
  slice_elems (Prefixes iface) !! j = Some (Some p) ->
  Config_valid (defaults.Set_Config c) <->
  (0 <= effective_preferred p <= effective_valid p /\
   effective_valid p <= 4294967295) /\
  Config_valid
    (defaults.Set_Config
       (replace_interface k
          (replace_prefix j (with_lifetimes None None p) iface) c)).
Proof.
  intros Hk Hj. set (q := with_lifetimes None None p).
  set (iq := replace_prefix j q iface).
  assert (Hq : PrefixConfig_valid (defaults.Set_PrefixConfig p) <->
               (0 <= effective_preferred p <= effective_valid p /\
                effective_valid p <= 4294967295) /\
               PrefixConfig_valid (defaults.Set_PrefixConfig q)).
  { rewrite !PrefixConfig_valid_Set. subst q.
    unfold effective_preferred, effective_valid. simpl. intuition lia. }
  split.
  - intros Hv.
    pose proof (Config_valid_lookup _ k _ Hv (Set_Config_lookup _ _ _ Hk)) as Hi.
    pose proof (InterfaceConfig_valid_lookup _ j _ Hi
                  (Set_InterfaceConfig_lookup _ _ _ Hj)) as Hp.
    apply Hq in Hp as [Hr Hpq]. split; [exact Hr|].
    apply (Config_valid_Set_replace c k iface); try assumption; [reflexivity|].
    apply (InterfaceConfig_valid_Set_replace iface j p); try assumption;
      [reflexivity|].
    intros _. exact Hpq.
  - intros [Hr Hv].
    rewrite <- (replace_interface_id k iface c Hk).
    rewrite <- (replace_interface_twice k iface iq c).
    apply (Config_valid_Set_replace _ k iq); try assumption.
    + apply (replace_interface_lookup _ _ _ _ Hk).
    + reflexivity.
    + intros Hiq. rewrite <- (replace_prefix_id j p iface Hj).
      rewrite <- (replace_prefix_twice j p q iface).
      apply (InterfaceConfig_valid_Set_replace _ j q).
      * apply (replace_prefix_lookup _ _ _ _ Hj).
      * reflexivity.
      * intros Hpq. apply Hq. auto.
      * exact Hiq.
Qed.

(** C8. For a prefix entry of an interface of the configuration, with the
    lifetimes [preferred] and [valid] it carries (the defaults standing in
    for a [nil] pointer), and [omitted] the configuration in which both
    lifetimes of that entry are left out: when [preferred] exceeds [valid],
    [defaultAndValidate] returns a non-nil error; [defaultAndValidate]
    returns the nil error exactly when
    [0 <= preferred <= valid <= 4294967295] and it returns the nil error
    for [omitted]; and that is exactly when the pair is in that order and
    [omitted], with the defaults filled in, meets every constraint of the
    data model. *)
Theorem lifetime_pair_enforced
    (c : Config) (k j : nat) (iface : InterfaceConfig) (p : PrefixConfig) :
  slice_elems (Interfaces c) !! k = Some (Some iface) ->
  slice_elems (Prefixes iface) !! j = Some (Some p) ->
  let preferred := effective_preferred p in
  let valid := effective_valid p in
  let omitted :=
    replace_interface k
      (replace_prefix j (with_lifetimes None None p) iface) c in
  (valid < preferred -> validation_error c <> None) /\
  (validation_error c = None <->
   (0 <= preferred <= valid /\ valid <= 4294967295) /\
   validation_error omitted = None) /\
  (validation_error c = None <->
   (0 <= preferred <= valid /\ valid <= 4294967295) /\
   Config_valid (defaults.Set_Config omitted)).
Proof.
  intros Hk Hj preferred valid omitted. subst preferred valid omitted.
  pose proof (lifetimes_valid_iff c k j iface p Hk Hj) as Hiff.
  split; [|split].
  - intros Hgt Hok. apply validation_error_valid, Hiff in Hok.
    destruct Hok as [Hr _]. lia.
  - rewrite !validation_error_valid. exact Hiff.
  - rewrite validation_error_valid. exact Hiff.
Qed.

Lemma prefixes_disjoint_singleton p : prefixes_disjoint [p].
Proof.
  intros a b p0 p1 Ha Hb H0 H1 Hne.
  apply list_elem_of_singleton in Ha, Hb. subst a b. congruence.
Qed.

(** A configuration of one interface that carries one prefix entry. *)
Lemma one_prefix_config_valid n ra m o t l a v w :
  n <> EmptyString -> 70 <= ra <= 1800000 ->
  t <> EmptyString -> isCIDRv6 t = true ->
  0 <= w <= v -> v <= 4294967295 ->
  Config_valid
    {| Interfaces :=
         Some [Some (mkInterfaceConfig n ra 0 m o 0 0 0
                       (Some [Some (mkPrefixConfig t l a (Some v) (Some w))]))] |}.
Proof.
  intros Hn Hra Ht Hc Hw Hv.
  exists [mkInterfaceConfig n ra 0 m o 0 0 0
            (Some [Some (mkPrefixConfig t l a (Some v) (Some w))])].
  split; [reflexivity|]. split; [apply NoDup_singleton|].
  apply Forall_singleton. unfold InterfaceConfig_valid. simpl.
  repeat (split; [first [assumption | lia]|]).
  exists [mkPrefixConfig t l a (Some v) (Some w)].
  split; [reflexivity|]. split; [apply prefixes_disjoint_singleton|].
  apply Forall_singleton. split; [exact Ht|]. split; [exact Hc|].
  exists v, w. auto.
Qed.

Lemma equal_lifetimes_omitted_valid :
  Config_valid
    (defaults.Set_Config
       (replace_interface 0
          (replace_prefix 0
             (with_lifetimes None None
                (mkPrefixConfig "2001:db8::/64" true true (Some 0) (Some 0)))
             (mkInterfaceConfig "net0" 100 0 false false 0 0 0
                (Some [Some (mkPrefixConfig "2001:db8::/64" true true
                               (Some 0) (Some 0))])))
          equal_lifetimes_config)).
Proof.
  apply (one_prefix_config_valid "net0" 100 false false "2001:db8::/64"
           true true 2592000 604800);
    first [discriminate | lia | (vm_compute; reflexivity)
          | (split; discriminate) ].
Qed.

Lemma lifetime_pair_enforced_witness :
  validation_error inverted_lifetimes_config <> None /\
  validation_error equal_lifetimes_config = None.
Proof.
  split.
  - refine (proj1 (lifetime_pair_enforced inverted_lifetimes_config 0 0
                     (mkInterfaceConfig "net0" 100 0 false false 0 0 0
                        (Some [Some (mkPrefixConfig "2001:db8::/64" true true
                                       (Some 100) (Some 101))]))
                     (mkPrefixConfig "2001:db8::/64" true true (Some 100) (Some 101))
                     eq_refl eq_refl) _).
    vm_compute. reflexivity.
  - apply (proj2 (proj2 (proj2 (lifetime_pair_enforced equal_lifetimes_config 0 0
                     (mkInterfaceConfig "net0" 100 0 false false 0 0 0
                        (Some [Some (mkPrefixConfig "2001:db8::/64" true true
                                       (Some 0) (Some 0))]))
                     (mkPrefixConfig "2001:db8::/64" true true (Some 0) (Some 0))
                     eq_refl eq_refl)))).
    split; [|exact equal_lifetimes_omitted_valid].
    vm_compute. split; [split|]; discriminate.
Defined.

(** ** Defaults come first, on the returned configuration and error *)

Lemma Set_PrefixConfig_nil_valid p :
  ValidLifetimeSeconds p = None ->
  defaults.Set_PrefixConfig
    (with_lifetimes (Some 2592000) (PreferredLifetimeSeconds p) p)
  = defaults.Set_PrefixConfig p.
Proof. destruct p as [t l a v w]. simpl. intros ->. reflexivity. Qed.

Lemma Set_PrefixConfig_nil_preferred p :
  PreferredLifetimeSeconds p = None ->
  defaults.Set_PrefixConfig
    (with_lifetimes (ValidLifetimeSeconds p) (Some 604800) p)
  = defaults.Set_PrefixConfig p.
Proof. destruct p as [t l a v w]. simpl. intros ->. reflexivity. Qed.

Lemma Set_Config_replace_prefix_same c k j iface p new :
  slice_elems (Interfaces c) !! k = Some (Some iface) ->
  slice_elems (Prefixes iface) !! j = Some (Some p) ->
  defaults.Set_PrefixConfig new = defaults.Set_PrefixConfig p ->
  defaults.Set_Config (replace_interface k (replace_prefix j new iface) c)
  = defaults.Set_Config c.
Proof.
  intros Hk Hj He. apply (Set_Config_replace_same c k iface _ Hk).
  apply (Set_InterfaceConfig_replace_same iface j p _ Hj He).
Qed.

(** C10. [defaultAndValidate] validates the configuration with the defaults
    filled in, which is also the configuration it leaves behind: writing the
    defaults out changes nothing of the outcome, and when the configuration
    with the defaults filled in meets every constraint of the data model,
    it is returned with the nil error.  An interface whose interval is zero
    carries 600000 afterwards, and [defaultAndValidate] returns what it
    returns for the configuration with 600000 written there: that
    configuration and the nil error, when it meets the constraints as
    written.  Likewise a prefix entry whose [ValidLifetimeSeconds] pointer
    is [nil] carries 2592000, and one whose [PreferredLifetimeSeconds]
    pointer is [nil] carries 604800, with the outcome of the configuration
    in which that value is written. *)
Theorem defaults_filled_before_validation (c : Config) :
  let c' := fst (defaultAndValidate c) in
  c' = defaults.Set_Config c /\
  validation_error c
  = match validate_Struct c' with [] => None | verrs => Some verrs end /\
  validation_error c' = validation_error c /\
  (Config_valid c' -> defaultAndValidate c = (c', None)) /\
  forall k iface, slice_elems (Interfaces c) !! k = Some (Some iface) ->
    exists iface', slice_elems (Interfaces c') !! k = Some (Some iface') /\
      (RAIntervalMilliseconds iface = 0 ->
       let written := replace_interface k (with_interval 600000 iface) c in
       RAIntervalMilliseconds iface' = 600000 /\
       defaultAndValidate c = defaultAndValidate written /\
       (Config_valid written -> defaultAndValidate c = (written, None))) /\
      forall j p, slice_elems (Prefixes iface) !! j = Some (Some p) ->
        exists p', slice_elems (Prefixes iface') !! j = Some (Some p') /\
          (ValidLifetimeSeconds p = None ->
           let written :=
             replace_interface k
               (replace_prefix j
                  (with_lifetimes (Some 2592000) (PreferredLifetimeSeconds p) p)
                  iface) c in
           ValidLifetimeSeconds p' = Some 2592000 /\
           defaultAndValidate c = defaultAndValidate written /\
           (Config_valid written -> defaultAndValidate c = (written, None))) /\
          (PreferredLifetimeSeconds p = None ->
           let written :=
             replace_interface k
               (replace_prefix j
                  (with_lifetimes (ValidLifetimeSeconds p) (Some 604800) p)
                  iface) c in
           PreferredLifetimeSeconds p' = Some 604800 /\
           defaultAndValidate c = defaultAndValidate written /\
           (Config_valid written -> defaultAndValidate c = (written, None))).
Proof.
  intros c'. subst c'.
  change (fst (defaultAndValidate c)) with (defaults.Set_Config c).
  split; [reflexivity|]. split; [reflexivity|]. split.
  { unfold validation_error, defaultAndValidate. cbn [snd].
    rewrite Set_Config_idem. reflexivity. }
  split; [apply defaultAndValidate_valid|].
  intros k iface Hk. exists (defaults.Set_InterfaceConfig iface).
  split; [apply Set_Config_lookup; exact Hk|]. split.
  { intros H0 written.
    assert (Hs : defaults.Set_Config written = defaults.Set_Config c).
    { apply (Set_Config_replace_same c k iface _ Hk).
      apply Set_InterfaceConfig_zero_interval, H0. }
    split; [|split].
    - cbn [defaults.Set_InterfaceConfig RAIntervalMilliseconds].
      rewrite H0. reflexivity.
    - apply defaultAndValidate_Set_eq. symmetry. exact Hs.
    - apply defaultAndValidate_written, Hs. }
  intros j p Hj. exists (defaults.Set_PrefixConfig p).
  split; [apply Set_InterfaceConfig_lookup; exact Hj|].
  split.
  - intros Hn written.
    assert (Hs : defaults.Set_Config written = defaults.Set_Config c).
    { apply (Set_Config_replace_prefix_same c k j iface p _ Hk Hj).
      apply Set_PrefixConfig_nil_valid, Hn. }
    split; [|split].
    + cbn [defaults.Set_PrefixConfig ValidLifetimeSeconds]. rewrite Hn.
      reflexivity.
    + apply defaultAndValidate_Set_eq. symmetry. exact Hs.
    + apply defaultAndValidate_written, Hs.
  - intros Hn written.
    assert (Hs : defaults.Set_Config written = defaults.Set_Config c).
    { apply (Set_Config_replace_prefix_same c k j iface p _ Hk Hj).
      apply Set_PrefixConfig_nil_preferred, Hn. }
    split; [|split].
    + cbn [defaults.Set_PrefixConfig PreferredLifetimeSeconds]. rewrite Hn.
      reflexivity.
    + apply defaultAndValidate_Set_eq. symmetry. exact Hs.
    + apply defaultAndValidate_written, Hs.
Qed.

Lemma minimal_config_defaults_valid :
  Config_valid (defaults.Set_Config minimal_config).
Proof.
  apply (one_prefix_config_valid "net0" 600000 false false "2001:db8::/64"
           false false 2592000 604800);
    first [discriminate | lia | (vm_compute; reflexivity)
          | (split; discriminate) ].
Qed.

Lemma minimal_config_interval_written_valid :
  Config_valid
    (replace_interface 0
       (with_interval 600000
          (mkInterfaceConfig "net0" 0 0 false false 0 0 0
             (Some [Some (mkPrefixConfig "2001:db8::/64" true true
                            (Some 0) (Some 0))])))
       {| Interfaces :=
            Some [Some (mkInterfaceConfig "net0" 0 0 false false 0 0 0
                          (Some [Some (mkPrefixConfig "2001:db8::/64" true true
                                         (Some 0) (Some 0))]))] |}).
Proof.
  apply (one_prefix_config_valid "net0" 600000 false false "2001:db8::/64"
           true true 0 0);
    first [discriminate | lia | (vm_compute; reflexivity)
          | (split; discriminate) ].
Qed.

Lemma defaults_filled_before_validation_witness :
  defaultAndValidate minimal_config
  = ({| Interfaces :=
          Some [Some (mkInterfaceConfig "net0" 600000 0 false false 0 0 0
                        (Some [Some (mkPrefixConfig "2001:db8::/64" false false
                                       (Some 2592000) (Some 604800))]))] |},
     None) /\
  defaultAndValidate
    {| Interfaces :=
         Some [Some (mkInterfaceConfig "net0" 0 0 false false 0 0 0
                       (Some [Some (mkPrefixConfig "2001:db8::/64" true true
                                      (Some 0) (Some 0))]))] |}
  = ({| Interfaces :=
          Some [Some (mkInterfaceConfig "net0" 600000 0 false false 0 0 0
                        (Some [Some (mkPrefixConfig "2001:db8::/64" true true
                                       (Some 0) (Some 0))]))] |},
     None).
Proof.
  split.
  - exact (proj1 (proj2 (proj2 (proj2
             (defaults_filled_before_validation minimal_config))))
             minimal_config_defaults_valid).
  - destruct (proj2 (proj2 (proj2 (proj2
               (defaults_filled_before_validation
                  {| Interfaces :=
                       Some [Some (mkInterfaceConfig "net0" 0 0 false false
                                     0 0 0
                                     (Some [Some (mkPrefixConfig
                                                    "2001:db8::/64" true true
                                                    (Some 0) (Some 0))]))] |}))))
               0%nat _ eq_refl) as (iface' & _ & Hzero & _).
    exact (proj2 (proj2 (Hzero eq_refl))
             minimal_config_interval_written_valid).
Defined.
